(** * Polynomial string hashing and hash functors (StringHashing.cpp)

    A shallow embedding of the [Hashing] structure (prefix hashes, powers of
    the base and their modular inverses for two prime moduli), of its two
    substring queries, and of the functors [custom_hash], [pair_hash] and
    [vector_hash], followed by the properties proved about them.

    Conventions.
    - [ll] (signed 64 bit) values are integers of [Z]; products and sums
      computed in [ll] are reduced to the signed 64-bit range ([ll_wrap]),
      and the operator [%] of C++, which truncates towards zero, is [Z.rem].
      With base 31, moduli below [2^30] and character codes between [-224]
      and [31] the reduction never changes a value ([good_modulus]).
    - [uint64_t] and [size_t] (64 bit) values are integers of [Z] reduced
      modulo [2^64] after every operation that can carry.
    - A [vector] is a list; reading outside its bounds (undefined in C++)
      yields a default value and writing outside its bounds does nothing. *)

From Stdlib Require Import ZArith List String Ascii Lia.
From stdpp Require Import base list.
Import ListNotations.

Local Open Scope Z_scope.

(** ** Vectors indexed by [ll] *)

Definition vl := list Z.
Definition vvl := list vl.

Definition vget {A : Type} (d : A) (v : list A) (i : Z) : A :=
  if i <? 0 then d else default d (v !! Z.to_nat i).

Definition vset {A : Type} (v : list A) (i : Z) (x : A) : list A :=
  if i <? 0 then v else <[Z.to_nat i := x]> v.

(** [v.resize(k)] on a freshly constructed (empty) vector. *)
Definition resize {A : Type} (d : A) (k : Z) : list A :=
  replicate (Z.to_nat k) d.

(** ** Arithmetic of [ll] *)

Definition ll_wrap (z : Z) : Z := (z + 2 ^ 63) mod 2 ^ 64 - 2 ^ 63.

Definition ll_mul (a b : Z) : Z := ll_wrap (a * b).

Definition ll_add (a b : Z) : Z := ll_wrap (a + b).

(** ** Loop macros *)

Fixpoint rep_aux {S : Type} (k : nat) (i : Z) (body : Z -> S -> S) (s : S) : S :=
  match k with
  | O => s
  | Datatypes.S k' => rep_aux k' (i + 1) body (body i s)
  end.

(** Modelled from the spec: the macro [rep] is declared in the template
    header, which is not among the sources; [rep(i, a, b)] runs its body for
    [i = a, a+1, ..., b-1] (the spec builds every table "forward" over
    [0..n-1] resp. [1..n]). *)
Definition rep {S : Type} (a b : Z) (body : Z -> S -> S) (s : S) : S :=
  rep_aux (Z.to_nat (b - a)) a body s.

Fixpoint rrep_aux {S : Type} (k : nat) (i : Z) (body : Z -> S -> S) (s : S) : S :=
  match k with
  | O => s
  | Datatypes.S k' => rrep_aux k' (i - 1) body (body i s)
  end.

(** Modelled from the spec: the macro [rrep] is declared in the template
    header, which is not among the sources; [rrep(j, 0, n - 1)] fills the
    inverse table "for j from n-1 down to 0", so [rrep(i, a, b)] runs its
    body for [i = b, b-1, ..., a]. *)
Definition rrep {S : Type} (a b : Z) (body : Z -> S -> S) (s : S) : S :=
  rrep_aux (Z.to_nat (b - a + 1)) b body s.

(** ** Modular arithmetic primitives *)

(** Modelled from the spec: [mulMod] is defined in the template header,
    which is not among the sources; it "returns (a*b) mod m", reduced into
    [0, m), without intermediate overflow. *)
Definition mulMod (a b m : Z) : Z := (a * b) mod m.

(** Modelled from the spec: [subMod] is defined in the template header,
    which is not among the sources; it "returns (a-b) mod m, normalized into
    [0, m) even when a < b". *)
Definition subMod (a b m : Z) : Z := (a - b) mod m.

(** Binary exponentiation, least significant bit of the exponent first:
    [res * a^b mod m]. *)
Fixpoint expo_pos (res a : Z) (b : positive) (m : Z) : Z :=
  match b with
  | xH => mulMod res a m
  | xO b' => expo_pos res (mulMod a a m) b' m
  | xI b' => expo_pos (mulMod res a m) (mulMod a a m) b' m
  end.

Definition expo (a b m : Z) : Z :=
  match b with
  | Zpos p => expo_pos 1 a p m
  | _ => 1 mod m
  end.

(** Modelled from the spec: [mminvprime] is defined in the template header,
    which is not among the sources; it returns the inverse of [a] modulo the
    prime [m] "via Fermat's little theorem (a^(m-2) mod m, computed by fast
    exponentiation)". *)
Definition mminvprime (a m : Z) : Z := expo a (m - 2) m.

(** ** The Hashing engine *)

Record Hashing : Type := mkHashing {
  str : string;
  n : Z;
  base : Z;
  hashPrimes : vl;
  hashValues : vvl;
  powersOfBase : vvl;
  inversePowersOfBase : vvl
}.

Definition set_hashValues (h : Hashing) (x : vvl) : Hashing :=
  mkHashing (str h) (n h) (base h) (hashPrimes h) x
            (powersOfBase h) (inversePowersOfBase h).

Definition set_powersOfBase (h : Hashing) (x : vvl) : Hashing :=
  mkHashing (str h) (n h) (base h) (hashPrimes h) (hashValues h)
            x (inversePowersOfBase h).

Definition set_inversePowersOfBase (h : Hashing) (x : vvl) : Hashing :=
  mkHashing (str h) (n h) (base h) (hashPrimes h) (hashValues h)
            (powersOfBase h) x.

(** [str[j]] as the integer a [char] promotes to ([char] is signed on the
    usual targets; the letters of ASCII are below 128 either way). *)
Definition char_val (c : ascii) : Z :=
  let u := Z.of_nat (nat_of_ascii c) in
  if u <? 128 then u else u - 256.

Definition char_at (s : string) (j : Z) : Z :=
  if j <? 0 then 0
  else match String.get (Z.to_nat j) s with
       | Some c => char_val c
       | None => 0
       end.

(** ['a'] *)
Definition chr_a : Z := 97.

(** Lines 53-59: the table of [base^j % prime]. *)
Definition powers_row (b len p : Z) : vl :=
  let v := resize 0 (len + 1) in
  let v := vset v 0 1 in
  rep 1 (len + 1)
      (fun j v => vset v j (Z.rem (ll_mul b (vget 0 v (j - 1))) p)) v.

(** Lines 54, 62-64: the table of the inverses, from index [n] downwards. *)
Definition inverse_row (b len p : Z) (pw : vl) : vl :=
  let v := resize 0 (len + 1) in
  let v := vset v len (mminvprime (vget 0 pw len) p) in
  rrep 0 (len - 1) (fun j v => vset v j (mulMod (vget 0 v (j + 1)) b p)) v.

(** Lines 70-79: the prefix hashes. *)
Definition prefix_row (s : string) (len p : Z) (pw : vl) : vl :=
  let v := resize 0 len in
  rep 0 len (fun j v =>
    let v :=
      vset v j (Z.rem (ll_mul (char_at s j - chr_a + 1) (vget 0 pw j)) p) in
    vset v j
      (Z.rem (ll_add (vget 0 v j) (if j >? 0 then vget 0 v (j - 1) else 0)) p))
    v.

(** The constructor [Hashing(string a)]. *)
Definition Hashing_new (a : string) : Hashing :=
  let h := mkHashing a (Z.of_nat (String.length a)) 31
                     [1000000009; 100000007] [] [] [] in
  let primes := Z.of_nat (length (hashPrimes h)) in
  let h := set_hashValues h (resize [] primes) in
  let h := set_powersOfBase h (resize [] primes) in
  let h := set_inversePowersOfBase h (resize [] primes) in
  let h := rep 0 primes (fun i h =>
    let p := vget 0 (hashPrimes h) i in
    let pw := powers_row (base h) (n h) p in
    let h := set_powersOfBase h (vset (powersOfBase h) i pw) in
    let ipw := inverse_row (base h) (n h) p (vget [] (powersOfBase h) i) in
    set_inversePowersOfBase h (vset (inversePowersOfBase h) i ipw)) h in
  rep 0 primes (fun i h =>
    let p := vget 0 (hashPrimes h) i in
    let hv := prefix_row (str h) (n h) p (vget [] (powersOfBase h) i) in
    set_hashValues h (vset (hashValues h) i hv)) h.

(** ** Queries, as methods that receive and return the object *)

Definition Method (A : Type) : Type := Hashing -> A * Hashing.

#[export] Instance Method_ret : MRet Method :=
  fun A (a : A) h => (a, h).

#[export] Instance Method_bind : MBind Method :=
  fun A B (k : A -> Method B) (m : Method A) h => let (a, h') := m h in k a h'.

Definition member {A : Type} (f : Hashing -> A) : Method A :=
  fun h => (f h, h).

Fixpoint repM_aux {S : Type} (k : nat) (i : Z) (body : Z -> S -> Method S)
    (s : S) : Method S :=
  match k with
  | O => mret s
  | Datatypes.S k' => s' ← body i s; repM_aux k' (i + 1) body s'
  end.

Definition repM {S : Type} (a b : Z) (body : Z -> S -> Method S) (s : S)
    : Method S :=
  repM_aux (Z.to_nat (b - a)) a body s.

(** One component of a substring hash (lines 89-93, 105-107, 110-112). *)
Definition component (i l r : Z) : Method Z :=
  hv ← member hashValues;
  let val1 := vget 0 (vget [] hv i) r in
  let val2 := if l >? 0 then vget 0 (vget [] hv i) (l - 1) else 0 in
  hp ← member hashPrimes;
  ipw ← member inversePowersOfBase;
  mret (mulMod (subMod val1 val2 (vget 0 hp i))
              (vget 0 (vget [] ipw i) l) (vget 0 hp i)).

Definition substringHashVec (l r : Z) : Method vl :=
  hp ← member hashPrimes;
  let size := Z.of_nat (length hp) in
  let hash := resize 0 size in
  repM 0 size (fun i hash =>
    x ← component i l r;
    mret (vset hash i x)) hash.

Definition substringHashPair (l r : Z) : Method (Z * Z) :=
  h1 ← component 0 l r;
  h2 ← component 1 l r;
  mret (h1, h2).

(** The value a query returns. *)
Definition result {A : Type} (m : Method A) (h : Hashing) : A := fst (m h).

(** The object a query leaves behind. *)
Definition after {A : Type} (m : Method A) (h : Hashing) : Hashing := snd (m h).

(** ** Hash functors *)

Definition u64 (z : Z) : Z := z mod 2 ^ 64.

Module custom_hash.

Definition splitmix64 (x : Z) : Z :=
  let x := u64 (x + 0x9e3779b97f4a7c15) in
  let x := u64 (Z.lxor x (Z.shiftr x 30) * 0xbf58476d1ce4e5b9) in
  let x := u64 (Z.lxor x (Z.shiftr x 27) * 0x94d049bb133111eb) in
  Z.lxor x (Z.shiftr x 31).

(** [operator()]; [FIXED_RANDOM] is drawn once per process from the clock
    and is a parameter here. *)
Definition call (FIXED_RANDOM : Z) (x : Z) : Z :=
  splitmix64 (u64 (x + FIXED_RANDOM)).

End custom_hash.

Module pair_hash.

Definition call (FIXED_RANDOM : Z) (p : Z * Z) : Z :=
  let h1 := custom_hash.call FIXED_RANDOM (u64 (fst p)) in
  let h2 := custom_hash.call FIXED_RANDOM (u64 (snd p)) in
  Z.lxor h1 (u64 (Z.shiftl h2 1)).

End pair_hash.

Module vector_hash.

Definition call (FIXED_RANDOM : Z) (v : vl) : Z :=
  fold_left (fun h it =>
    Z.lxor h (u64 (custom_hash.call FIXED_RANDOM (u64 it) + 0x9e3779b9
                   + u64 (Z.shiftl h 6) + Z.shiftr h 2))) v 0.

End vector_hash.

(** ** Reference notions used in the statements *)

(** The mapped code of [str[j]]: ['a' -> 1], ['b' -> 2], ... *)
Definition code (s : string) (j : Z) : Z := char_at s j - chr_a + 1.

(** [sum_{k < len} c (l + k) * b^k]: the polynomial hash of the [len]
    characters that start at [l], the first one with weight [1]. *)
Fixpoint poly (c : Z -> Z) (b : Z) (l : Z) (len : nat) : Z :=
  match len with
  | O => 0
  | Datatypes.S k => poly c b l k + c (l + Z.of_nat k) * b ^ Z.of_nat k
  end.

(** Every character is one of ['a'..'z']. *)
Fixpoint lowercase (s : string) : bool :=
  match s with
  | EmptyString => true
  | String c t => (97 <=? char_val c) && (char_val c <=? 122) && lowercase t
  end.

(** [text[l..r]], bounds inclusive. *)
Definition slice (s : string) (l r : Z) : string :=
  substring (Z.to_nat l) (Z.to_nat (r - l + 1)) s.

(** The engine as constructed, read through its queries. *)
Definition substringHashVec_of (s : string) (l r : Z) : vl :=
  result (substringHashVec l r) (Hashing_new s).

Definition substringHashPair_of (s : string) (l r : Z) : Z * Z :=
  result (substringHashPair l r) (Hashing_new s).

(** What the proofs need of a base [b] and a modulus [p]: the products and
    sums of the constructor stay within [ll], and [b] satisfies Fermat's
    congruence modulo [p] (as it does when [p] is a prime that does not
    divide [b]). *)
Definition good_modulus (b p : Z) : Prop :=
  0 <= b /\ 1 < p /\ b * p <= 2 ^ 63 /\ 256 * p <= 2 ^ 63 /\
  b ^ (p - 1) mod p = 1.

(** [x] is a residue of the modulus [p]. *)
Definition in_range (p x : Z) : Prop := 0 <= x < p.

(** Every entry of the three tables of every modulus is a residue of that
    modulus. *)
Definition tables_in_range (h : Hashing) : Prop :=
  forall i, 0 <= i < Z.of_nat (length (hashPrimes h)) ->
    Forall (in_range (vget 0 (hashPrimes h) i)) (vget [] (powersOfBase h) i) /\
    Forall (in_range (vget 0 (hashPrimes h) i))
           (vget [] (inversePowersOfBase h) i) /\
    Forall (in_range (vget 0 (hashPrimes h) i)) (vget [] (hashValues h) i).

(** Inverse of [x ^ (x >> k)] on 64-bit words, for [3 * k >= 64]. *)
Definition unxorshift (k y : Z) : Z :=
  Z.lxor y (Z.lxor (Z.shiftr y k) (Z.shiftr y (2 * k))).

(** The steps of [splitmix64] undone in reverse order; the two constants
    are the inverses modulo [2^64] of its two odd multipliers. *)
Definition unsplitmix64 (y : Z) : Z :=
  let x := unxorshift 31 y in
  let x := unxorshift 27 (u64 (x * 0x319642b2d24d8ec3)) in
  let x := unxorshift 30 (u64 (x * 0x96de1b173f119089)) in
  u64 (x - 0x9e3779b97f4a7c15).

(** An [ll] value with the given 64-bit pattern. *)
Definition to_ll (u : Z) : Z := if u <? 2 ^ 63 then u else u - 2 ^ 64.

(** ** Vectors and loops *)

Lemma length_vset {A : Type} (v : list A) (i : Z) (x : A) :
  length (vset v i x) = length v.
Proof.
  unfold vset. destruct (i <? 0); [reflexivity | apply length_insert].
Qed.

Lemma length_resize {A : Type} (d : A) (k : Z) :
  0 <= k -> Z.of_nat (length (resize d k)) = k.
Proof.
  intros Hk. unfold resize. rewrite length_replicate. lia.
Qed.

Lemma vget_vset_eq {A : Type} (d : A) (v : list A) (i : Z) (x : A) :
  0 <= i < Z.of_nat (length v) -> vget d (vset v i x) i = x.
Proof.
  intros Hi. unfold vget, vset.
  destruct (i <? 0) eqn:E; [lia |].
  rewrite list_lookup_insert_eq by lia. reflexivity.
Qed.

Lemma vget_vset_ne {A : Type} (d : A) (v : list A) (i j : Z) (x : A) :
  i <> j -> vget d (vset v i x) j = vget d v j.
Proof.
  intros Hij. unfold vget, vset.
  destruct (j <? 0) eqn:Ej; [reflexivity |].
  destruct (i <? 0) eqn:Ei; [reflexivity |].
  rewrite list_lookup_insert_ne by lia. reflexivity.
Qed.

Lemma vget_resize {A : Type} (d : A) (k j : Z) : vget d (resize d k) j = d.
Proof.
  unfold vget, resize. destruct (j <? 0); [reflexivity |].
  destruct (replicate (Z.to_nat k) d !! Z.to_nat j) eqn:E; [| reflexivity].
  apply lookup_replicate in E. simpl. tauto.
Qed.

Section Loops.
Context {S : Type}.
Variable body : Z -> S -> S.

Lemma rep_aux_ind (P : Z -> S -> Prop) (k : nat) :
  forall (a : Z) (s : S),
    P a s ->
    (forall i s, a <= i < a + Z.of_nat k -> P i s -> P (i + 1) (body i s)) ->
    P (a + Z.of_nat k) (rep_aux k a body s).
Proof.
  induction k as [| k IH]; intros a s H0 Hstep; simpl.
  - replace (a + Z.of_nat 0) with a by lia. exact H0.
  - replace (a + Z.of_nat (Datatypes.S k)) with ((a + 1) + Z.of_nat k) by lia.
    apply IH.
    + apply Hstep; [lia | exact H0].
    + intros i s' Hi. apply Hstep. lia.
Qed.

(** Invariant rule of [rep]: [P i] holds before the iteration for [i]. *)
Lemma rep_ind (P : Z -> S -> Prop) (a b : Z) (s : S) :
  a <= b ->
  P a s ->
  (forall i s, a <= i < b -> P i s -> P (i + 1) (body i s)) ->
  P b (rep a b body s).
Proof.
  intros Hab H0 Hstep. unfold rep.
  replace b with (a + Z.of_nat (Z.to_nat (b - a))) at 1 by lia.
  apply rep_aux_ind; [exact H0 |].
  intros i s' Hi. apply Hstep. lia.
Qed.

Lemma rrep_aux_ind (P : Z -> S -> Prop) (k : nat) :
  forall (b : Z) (s : S),
    P (b + 1) s ->
    (forall i s, b - Z.of_nat k < i <= b -> P (i + 1) s -> P i (body i s)) ->
    P (b + 1 - Z.of_nat k) (rrep_aux k b body s).
Proof.
  induction k as [| k IH]; intros b s H0 Hstep; simpl.
  - replace (b + 1 - Z.of_nat 0) with (b + 1) by lia. exact H0.
  - replace (b + 1 - Z.of_nat (Datatypes.S k))
      with ((b - 1) + 1 - Z.of_nat k) by lia.
    apply IH.
    + replace (b - 1 + 1) with b by lia. apply Hstep; [lia | exact H0].
    + intros i s' Hi. apply Hstep. lia.
Qed.

(** Invariant rule of [rrep]: [P (i + 1)] holds before the iteration
    for [i], and [P a] at the end. *)
Lemma rrep_ind (P : Z -> S -> Prop) (a b : Z) (s : S) :
  a <= b + 1 ->
  P (b + 1) s ->
  (forall i s, a <= i <= b -> P (i + 1) s -> P i (body i s)) ->
  P a (rrep a b body s).
Proof.
  intros Hab H0 Hstep. unfold rrep.
  replace a with (b + 1 - Z.of_nat (Z.to_nat (b - a + 1))) at 1 by lia.
  apply rrep_aux_ind; [exact H0 |].
  intros i s' Hi. apply Hstep. lia.
Qed.
End Loops.

(** ** Modular arithmetic *)

Lemma rem_mod_nonneg (a m : Z) : 0 <= a -> 0 < m -> Z.rem a m = a mod m.
Proof. intros Ha Hm. apply Z.rem_mod_nonneg; lia. Qed.

(** [%] of C++ and the mathematical remainder agree modulo [m]. *)
Lemma rem_congr (a m : Z) : 0 < m -> (Z.rem a m) mod m = a mod m.
Proof.
  intros Hm.
  assert (E : Z.rem a m = a + (- (a ÷ m)) * m).
  { pose proof (Z.quot_rem' a m). lia. }
  rewrite E. apply Z_mod_plus_full.
Qed.

Lemma pow_mod_base (a e m : Z) : (a mod m) ^ e mod m = a ^ e mod m.
Proof. apply Z.mod_pow_l. Qed.

Lemma expo_pos_spec (b : positive) :
  forall res a m, expo_pos res a b m = (res * a ^ Zpos b) mod m.
Proof.
  induction b as [b IH | b IH |]; intros res a m; simpl expo_pos.
  - rewrite IH. unfold mulMod.
    rewrite Pos2Z.inj_xI.
    replace (a ^ (2 * Z.pos b + 1)) with (a * (a * a) ^ Z.pos b).
    2:{ symmetry. rewrite Z.pow_add_r by lia. rewrite Z.pow_mul_r by lia.
        rewrite Z.pow_1_r, Z.pow_2_r. ring. }
    rewrite <- Zmult_mod_idemp_r, pow_mod_base, Zmult_mod_idemp_r.
    rewrite Zmult_mod_idemp_l.
    f_equal. ring.
  - rewrite IH. unfold mulMod.
    rewrite Pos2Z.inj_xO.
    replace (a ^ (2 * Z.pos b)) with ((a * a) ^ Z.pos b).
    2:{ symmetry. rewrite Z.pow_mul_r by lia. rewrite Z.pow_2_r.
        reflexivity. }
    rewrite <- Zmult_mod_idemp_r, pow_mod_base, Zmult_mod_idemp_r.
    reflexivity.
  - unfold mulMod. rewrite Z.pow_1_r. reflexivity.
Qed.

Lemma expo_spec (a e m : Z) : 0 <= e -> expo a e m = a ^ e mod m.
Proof.
  intros He. destruct e as [| e | e]; simpl expo.
  - reflexivity.
  - rewrite expo_pos_spec. f_equal. lia.
  - lia.
Qed.

Lemma mminvprime_spec (a m : Z) : 2 <= m -> mminvprime a m = a ^ (m - 2) mod m.
Proof. intros Hm. unfold mminvprime. apply expo_spec. lia. Qed.

(** ** The three tables of one modulus *)

Lemma ll_wrap_small (z : Z) : - 2 ^ 63 <= z < 2 ^ 63 -> ll_wrap z = z.
Proof. intros H. unfold ll_wrap. rewrite Z.mod_small; lia. Qed.

Lemma char_val_bounds (c : ascii) : -128 <= char_val c <= 127.
Proof.
  unfold char_val. pose proof (nat_ascii_bounded c).
  destruct (Z.of_nat (nat_of_ascii c) <? 128) eqn:E; lia.
Qed.

Lemma code_bounds (s : string) (j : Z) : -224 <= code s j <= 31.
Proof.
  unfold code, char_at, chr_a.
  destruct (j <? 0); [lia |].
  destruct (String.get (Z.to_nat j) s) as [c |]; [| lia].
  pose proof (char_val_bounds c). lia.
Qed.

Section Rows.
Variables (b len p : Z).
Hypothesis Hgood : good_modulus b p.
Hypothesis Hlen : 0 <= len.

Lemma powers_row_spec :
  Z.of_nat (length (powers_row b len p)) = len + 1 /\
  forall j, 0 <= j <= len -> vget 0 (powers_row b len p) j = b ^ j mod p.
Proof using Hgood Hlen.
  destruct Hgood as (Hb & Hp & Hbp & _ & _).
  unfold powers_row.
  set (P := fun (k : Z) (v : vl) =>
    Z.of_nat (length v) = len + 1 /\
    forall j, 0 <= j < k -> vget 0 v j = b ^ j mod p).
  assert (H : P (len + 1)
    (rep 1 (len + 1)
       (fun j v => vset v j (Z.rem (ll_mul b (vget 0 v (j - 1))) p))
       (vset (resize 0 (len + 1)) 0 1))).
  { apply rep_ind; [lia | |]; unfold P.
    - split.
      + rewrite length_vset. apply length_resize. lia.
      + intros j Hj. assert (j = 0) as -> by lia.
        rewrite vget_vset_eq by (rewrite length_resize; lia).
        rewrite Z.pow_0_r, Z.mod_1_l; [reflexivity | lia].
    - intros i v Hi [Hl Hv]. split.
      + rewrite length_vset. exact Hl.
      + intros j Hj. destruct (Z.eq_dec j i) as [-> | Hne].
        * rewrite vget_vset_eq by lia.
          rewrite Hv by lia.
          pose proof (Z.mod_pos_bound (b ^ (i - 1)) p ltac:(lia)) as Hr.
          unfold ll_mul. rewrite ll_wrap_small by nia.
          rewrite rem_mod_nonneg by nia.
          rewrite Zmult_mod_idemp_r.
          replace i with (1 + (i - 1)) at 2 by lia.
          rewrite Z.pow_add_r, Z.pow_1_r by lia. reflexivity.
        * rewrite vget_vset_ne by lia. apply Hv. lia. }
  destruct H as [Hl Hv]. split; [exact Hl |].
  intros j Hj. apply Hv. lia.
Qed.

Lemma mminvprime_power :
  (mminvprime (b ^ len mod p) p * b ^ len) mod p = 1.
Proof using Hgood Hlen.
  destruct Hgood as (_ & Hp & _ & _ & Hfermat).
  rewrite mminvprime_spec by lia.
  rewrite pow_mod_base, Zmult_mod_idemp_l.
  replace ((b ^ len) ^ (p - 2) * b ^ len) with ((b ^ (p - 1)) ^ len).
  - rewrite <- pow_mod_base, Hfermat, Z.pow_1_l by lia.
    apply Z.mod_1_l. lia.
  - rewrite <- !Z.pow_mul_r by lia.
    rewrite <- Z.pow_add_r by nia.
    f_equal. ring.
Qed.

Lemma inverse_row_spec :
  Z.of_nat (length (inverse_row b len p (powers_row b len p))) = len + 1 /\
  forall j, 0 <= j <= len ->
    0 <= vget 0 (inverse_row b len p (powers_row b len p)) j < p /\
    (vget 0 (inverse_row b len p (powers_row b len p)) j * b ^ j) mod p = 1.
Proof using Hgood Hlen.
  pose proof (proj2 powers_row_spec len ltac:(lia)) as Hpw.
  pose proof mminvprime_power as Hinv0.
  destruct Hgood as (_ & Hp & _ & _ & _).
  unfold inverse_row.
  set (pw := powers_row b len p) in *.
  set (P := fun (k : Z) (v : vl) =>
    Z.of_nat (length v) = len + 1 /\
    forall j, k <= j <= len ->
      0 <= vget 0 v j < p /\ (vget 0 v j * b ^ j) mod p = 1).
  assert (H : P 0
    (rrep 0 (len - 1)
       (fun j v => vset v j (mulMod (vget 0 v (j + 1)) b p))
       (vset (resize 0 (len + 1)) len
          (mminvprime (vget 0 pw len) p)))).
  { apply rrep_ind; [lia | |]; unfold P.
    - split.
      + rewrite length_vset. apply length_resize. lia.
      + intros j Hj. assert (j = len) as -> by lia.
        rewrite vget_vset_eq by (rewrite length_resize; lia).
        rewrite Hpw. split.
        * rewrite mminvprime_spec by lia. apply Z.mod_pos_bound. lia.
        * exact Hinv0.
    - intros i v Hi [Hl Hv]. split.
      + rewrite length_vset. exact Hl.
      + intros j Hj. destruct (Z.eq_dec j i) as [-> | Hne].
        * rewrite vget_vset_eq by lia. unfold mulMod. split.
          -- apply Z.mod_pos_bound. lia.
          -- rewrite Zmult_mod_idemp_l.
             destruct (Hv (i + 1)) as [_ Hinv]; [lia |].
             etransitivity; [| exact Hinv]. f_equal.
             rewrite Z.pow_add_r, Z.pow_1_r by lia. ring.
        * rewrite vget_vset_ne by lia. apply Hv. lia. }
  exact H.
Qed.

Section Prefix.
Variable s : string.

Lemma prefix_row_spec :
  Z.of_nat (length (prefix_row s len p (powers_row b len p))) = len /\
  forall j, 0 <= j < len ->
    - p < vget 0 (prefix_row s len p (powers_row b len p)) j < p /\
    vget 0 (prefix_row s len p (powers_row b len p)) j mod p
    = poly (code s) b 0 (Z.to_nat (j + 1)) mod p.
Proof using Hgood Hlen.
  pose proof (proj2 powers_row_spec) as Hpw.
  destruct Hgood as (Hb & Hp & _ & Hcp & _).
  unfold prefix_row.
  set (pw := powers_row b len p) in *.
  set (body := fun (j : Z) (v : vl) =>
    let v :=
      vset v j (Z.rem (ll_mul (char_at s j - chr_a + 1) (vget 0 pw j)) p) in
    vset v j
      (Z.rem (ll_add (vget 0 v j) (if j >? 0 then vget 0 v (j - 1) else 0)) p)).
  set (P := fun (k : Z) (v : vl) =>
    Z.of_nat (length v) = len /\
    forall j, 0 <= j < k ->
      - p < vget 0 v j < p /\
      vget 0 v j mod p = poly (code s) b 0 (Z.to_nat (j + 1)) mod p).
  assert (H : P len (rep 0 len body (resize 0 len))).
  { apply rep_ind; [lia | |]; unfold P.
    - split; [apply length_resize; lia | intros j Hj; lia].
    - intros i v Hi [Hl Hv]. unfold body. split.
      + rewrite !length_vset. exact Hl.
      + intros j Hj. destruct (Z.eq_dec j i) as [-> | Hne].
        * rewrite vget_vset_eq by (rewrite length_vset; lia).
          rewrite vget_vset_eq by lia.
          rewrite vget_vset_ne by lia.
          fold (code s i). rewrite Hpw by lia.
          pose proof (code_bounds s i) as Hc.
          pose proof (Z.mod_pos_bound (b ^ i) p ltac:(lia)) as Hr.
          unfold ll_mul. rewrite ll_wrap_small by nia.
          set (X := Z.rem (code s i * (b ^ i mod p)) p).
          assert (HX : - p < X < p).
          { pose proof (Z.rem_bound_abs (code s i * (b ^ i mod p)) p
                          ltac:(lia)). fold X in H. lia. }
          set (prev := if i >? 0 then vget 0 v (i - 1) else 0).
          assert (Hprev : - p < prev < p /\
                          prev mod p = poly (code s) b 0 (Z.to_nat i) mod p).
          { unfold prev. destruct (i >? 0) eqn:E.
            - destruct (Hv (i - 1)) as [Ha Hb']; [lia |].
              split; [exact Ha |]. rewrite Hb'. do 2 f_equal. lia.
            - assert (i = 0) as -> by lia. split; [lia | reflexivity]. }
          destruct Hprev as [Hprev1 Hprev2].
          unfold ll_add. rewrite ll_wrap_small by lia.
          split.
          -- pose proof (Z.rem_bound_abs (X + prev) p ltac:(lia)). lia.
          -- rewrite rem_congr by lia.
             rewrite Zplus_mod. unfold X. rewrite rem_congr by lia.
             rewrite Hprev2, Zmult_mod_idemp_r.
             replace (Z.to_nat (i + 1)) with (Datatypes.S (Z.to_nat i)) by lia.
             cbn [poly]. rewrite Z2Nat.id, Z.add_0_l by lia.
             rewrite (Zplus_mod (poly _ _ _ _)).
             rewrite (Z.add_comm ((code s i * b ^ i) mod p)).
             reflexivity.
        * rewrite !vget_vset_ne by lia. apply Hv. lia. }
  exact H.
Qed.

(** With codes that are not negative, [%] never sees a negative operand
    and every prefix hash is a residue. *)
Lemma prefix_row_range :
  (forall j, 0 <= j < len -> 0 <= code s j) ->
  forall j, 0 <= j < len ->
    0 <= vget 0 (prefix_row s len p (powers_row b len p)) j < p.
Proof using Hgood Hlen.
  intros Hcode.
  pose proof (proj2 powers_row_spec) as Hpw.
  destruct Hgood as (Hb & Hp & _ & Hcp & _).
  unfold prefix_row.
  set (pw := powers_row b len p) in *.
  set (body := fun (j : Z) (v : vl) =>
    let v :=
      vset v j (Z.rem (ll_mul (char_at s j - chr_a + 1) (vget 0 pw j)) p) in
    vset v j
      (Z.rem (ll_add (vget 0 v j) (if j >? 0 then vget 0 v (j - 1) else 0)) p)).
  set (P := fun (k : Z) (v : vl) =>
    Z.of_nat (length v) = len /\
    forall j, 0 <= j < k -> 0 <= vget 0 v j < p).
  assert (H : P len (rep 0 len body (resize 0 len))).
  { apply rep_ind; [lia | |]; unfold P.
    - split; [apply length_resize; lia | intros j Hj; lia].
    - intros i v Hi [Hl Hv]. unfold body. split.
      + rewrite !length_vset. exact Hl.
      + intros j Hj. destruct (Z.eq_dec j i) as [-> | Hne].
        * rewrite vget_vset_eq by (rewrite length_vset; lia).
          rewrite vget_vset_eq by lia.
          rewrite vget_vset_ne by lia.
          fold (code s i). rewrite Hpw by lia.
          pose proof (code_bounds s i) as Hc.
          pose proof (Hcode i ltac:(lia)) as Hc0.
          pose proof (Z.mod_pos_bound (b ^ i) p ltac:(lia)) as Hr.
          unfold ll_mul. rewrite ll_wrap_small by nia.
          rewrite (rem_mod_nonneg (code s i * (b ^ i mod p))) by nia.
          assert (H2 : 0 <= (code s i * (b ^ i mod p)) mod p < p)
            by (apply Z.mod_pos_bound; lia).
          assert (H3 : 0 <= (if i >? 0 then vget 0 v (i - 1) else 0) < p).
          { destruct (i >? 0) eqn:E; [apply Hv |]; lia. }
          unfold ll_add. rewrite ll_wrap_small by lia.
          rewrite rem_mod_nonneg by lia.
          apply Z.mod_pos_bound. lia.
        * rewrite !vget_vset_ne by lia. apply Hv. lia. }
  exact (proj2 H).
Qed.
End Prefix.
End Rows.

(** ** Strings *)

Lemma get_some (s : string) :
  forall j : nat, (j < String.length s)%nat -> exists c, String.get j s = Some c.
Proof.
  induction s as [| c s IH]; intros j Hj; simpl in *.
  - lia.
  - destruct j as [| j]; [eexists; reflexivity |]. apply IH. lia.
Qed.

Lemma lowercase_get (s : string) :
  lowercase s = true ->
  forall (j : nat) (c : ascii),
    String.get j s = Some c -> 97 <= char_val c <= 122.
Proof.
  induction s as [| a s IH]; intros Hs j c Hget; simpl in *.
  - discriminate.
  - apply andb_prop in Hs as [Ha Hs]. apply andb_prop in Ha as [Ha1 Ha2].
    destruct j as [| j].
    + injection Hget as <-. lia.
    + exact (IH Hs j c Hget).
Qed.

Lemma lowercase_code (s : string) (j : Z) :
  lowercase s = true ->
  0 <= j < Z.of_nat (String.length s) -> 1 <= code s j <= 26.
Proof.
  intros Hs Hj. unfold code, char_at, chr_a.
  destruct (j <? 0) eqn:E; [lia |].
  destruct (get_some s (Z.to_nat j)) as [c Hc]; [lia |].
  rewrite Hc. pose proof (lowercase_get s Hs _ _ Hc). lia.
Qed.

(** Equal slices have equal lengths and equal characters. *)
Lemma slice_eq_length (s : string) (l1 r1 l2 r2 : Z) :
  0 <= l1 <= r1 -> r1 < Z.of_nat (String.length s) ->
  0 <= l2 <= r2 -> r2 < Z.of_nat (String.length s) ->
  slice s l1 r1 = slice s l2 r2 -> r1 - l1 = r2 - l2.
Proof.
  intros H1 H1' H2 H2' Heq. unfold slice in Heq.
  destruct (Z.lt_trichotomy (r1 - l1) (r2 - l2)) as [Hlt | [Hq | Hgt]];
    [| exact Hq |]; exfalso.
  - pose proof (substring_correct1 s (Z.to_nat l2) (Z.to_nat (r2 - l2 + 1))
                  (Z.to_nat (r1 - l1 + 1))) as Ha.
    pose proof (substring_correct2 s (Z.to_nat l1) (Z.to_nat (r1 - l1 + 1))
                  (Z.to_nat (r1 - l1 + 1))) as Hb.
    rewrite <- Heq, Hb in Ha by lia.
    destruct (get_some s (Z.to_nat (r1 - l1 + 1) + Z.to_nat l2)) as [c Hc];
      [lia |].
    rewrite Hc in Ha. specialize (Ha ltac:(lia)). discriminate.
  - pose proof (substring_correct1 s (Z.to_nat l1) (Z.to_nat (r1 - l1 + 1))
                  (Z.to_nat (r2 - l2 + 1))) as Ha.
    pose proof (substring_correct2 s (Z.to_nat l2) (Z.to_nat (r2 - l2 + 1))
                  (Z.to_nat (r2 - l2 + 1))) as Hb.
    rewrite Heq, Hb in Ha by lia.
    destruct (get_some s (Z.to_nat (r2 - l2 + 1) + Z.to_nat l1)) as [c Hc];
      [lia |].
    rewrite Hc in Ha. specialize (Ha ltac:(lia)). discriminate.
Qed.

Lemma slice_eq_char (s : string) (l1 r1 l2 r2 : Z) :
  0 <= l1 <= r1 -> 0 <= l2 <= r2 -> r1 - l1 = r2 - l2 ->
  slice s l1 r1 = slice s l2 r2 ->
  forall k, 0 <= k <= r1 - l1 -> char_at s (l1 + k) = char_at s (l2 + k).
Proof.
  intros H1 H2 Hlen Heq k Hk. unfold slice in Heq. unfold char_at.
  destruct (l1 + k <? 0) eqn:E1; [lia |].
  destruct (l2 + k <? 0) eqn:E2; [lia |].
  replace (Z.to_nat (l1 + k)) with (Z.to_nat k + Z.to_nat l1)%nat by lia.
  replace (Z.to_nat (l2 + k)) with (Z.to_nat k + Z.to_nat l2)%nat by lia.
  rewrite <- (substring_correct1 s _ (Z.to_nat (r1 - l1 + 1))) by lia.
  rewrite <- (substring_correct1 s _ (Z.to_nat (r2 - l2 + 1))) by lia.
  rewrite Heq. reflexivity.
Qed.

(** ** Polynomial hashes *)

Lemma poly_split (c : Z -> Z) (b : Z) (l k : nat) :
  poly c b 0 (l + k)
  = poly c b 0 l + b ^ Z.of_nat l * poly c b (Z.of_nat l) k.
Proof.
  induction k as [| k IH].
  - rewrite Nat.add_0_r. simpl. ring.
  - rewrite Nat.add_succ_r. cbn [poly]. rewrite IH.
    rewrite Nat2Z.inj_add, Z.pow_add_r by lia.
    rewrite Z.add_0_l. ring.
Qed.

Lemma poly_ext (c1 c2 : Z -> Z) (b l1 l2 : Z) (len : nat) :
  (forall k, 0 <= k < Z.of_nat len -> c1 (l1 + k) = c2 (l2 + k)) ->
  poly c1 b l1 len = poly c2 b l2 len.
Proof.
  induction len as [| len IH]; intros H; cbn [poly].
  - reflexivity.
  - rewrite IH by (intros k Hk; apply H; lia).
    rewrite H by lia. reflexivity.
Qed.

Lemma poly_one (c : Z -> Z) (b l : Z) : poly c b l 1 = c l.
Proof. cbn [poly]. rewrite Z.add_0_r, Z.pow_0_r. simpl. ring. Qed.

(** ** One component of a query, on the tables of one modulus *)

Section Query.
Variables (b len p : Z) (s : string).
Hypothesis Hgood : good_modulus b p.
Hypothesis Hlen : 0 <= len.

Local Abbreviation pw := (powers_row b len p).
Local Abbreviation ipw := (inverse_row b len p pw).
Local Abbreviation hv := (prefix_row s len p pw).

(** Subtracting the prefix before [l] and multiplying by the inverse of
    [b^l] leaves the polynomial hash of [s[l..r]] alone. *)
Lemma normalized_hash (l r : Z) :
  0 <= l -> l <= r -> r < len ->
  mulMod (subMod (vget 0 hv r) (if l >? 0 then vget 0 hv (l - 1) else 0) p)
         (vget 0 ipw l) p
  = poly (code s) b l (Z.to_nat (r - l + 1)) mod p.
Proof using Hgood Hlen.
  intros Hl Hlr Hr. unfold mulMod, subMod.
  destruct (prefix_row_spec b len p Hgood Hlen s) as [_ Hhv].
  destruct (inverse_row_spec b len p Hgood Hlen) as [_ Hipw].
  destruct (Hipw l ltac:(lia)) as [_ Hinv].
  assert (Hprev : (if l >? 0 then vget 0 hv (l - 1) else 0) mod p
                  = poly (code s) b 0 (Z.to_nat l) mod p).
  { destruct (l >? 0) eqn:E.
    - rewrite (proj2 (Hhv (l - 1) ltac:(lia))). do 2 f_equal. lia.
    - assert (l = 0) as -> by lia. reflexivity. }
  rewrite Zmult_mod_idemp_l.
  rewrite <- Zmult_mod_idemp_l, Zminus_mod.
  rewrite (proj2 (Hhv r ltac:(lia))), Hprev.
  rewrite <- Zminus_mod, Zmult_mod_idemp_l.
  replace (Z.to_nat (r + 1)) with (Z.to_nat l + Z.to_nat (r - l + 1))%nat
    by lia.
  rewrite poly_split, Z2Nat.id by lia.
  set (X := poly (code s) b l (Z.to_nat (r - l + 1))).
  replace ((poly (code s) b 0 (Z.to_nat l) + b ^ l * X
            - poly (code s) b 0 (Z.to_nat l)) * vget 0 ipw l)
    with ((vget 0 ipw l * b ^ l) * X) by ring.
  rewrite <- Zmult_mod_idemp_l, Hinv. f_equal. ring.
Qed.
End Query.

(** ** The constructed engine *)

Section Engine.
Variable s : string.

Local Abbreviation h := (Hashing_new s).
Local Abbreviation len := (Z.of_nat (String.length s)).

Lemma new_str : str h = s.
Proof. reflexivity. Qed.

Lemma new_n : n h = len.
Proof. reflexivity. Qed.

Lemma new_base : base h = 31.
Proof. reflexivity. Qed.

Lemma new_hashPrimes : hashPrimes h = [1000000009; 100000007].
Proof. reflexivity. Qed.

Lemma new_powersOfBase :
  powersOfBase h
  = [powers_row 31 len 1000000009; powers_row 31 len 100000007].
Proof. reflexivity. Qed.

Lemma new_inversePowersOfBase :
  inversePowersOfBase h
  = [inverse_row 31 len 1000000009 (powers_row 31 len 1000000009);
     inverse_row 31 len 100000007 (powers_row 31 len 100000007)].
Proof. reflexivity. Qed.

Lemma new_hashValues :
  hashValues h
  = [prefix_row s len 1000000009 (powers_row 31 len 1000000009);
     prefix_row s len 100000007 (powers_row 31 len 100000007)].
Proof. reflexivity. Qed.
End Engine.

(** Both default moduli are good for the base 31; Fermat's congruence is
    checked by running the binary exponentiation. *)
Lemma good_1000000009 : good_modulus 31 1000000009.
Proof.
  unfold good_modulus. do 4 (split; [lia |]).
  rewrite <- expo_spec by lia. vm_compute. reflexivity.
Qed.

Lemma good_100000007 : good_modulus 31 100000007.
Proof.
  unfold good_modulus. do 4 (split; [lia |]).
  rewrite <- expo_spec by lia. vm_compute. reflexivity.
Qed.

(** ** What the queries of a constructed engine return *)

Lemma Forall_vget (P : Z -> Prop) (v : vl) :
  (forall j, 0 <= j < Z.of_nat (length v) -> P (vget 0 v j)) -> Forall P v.
Proof.
  intros H. apply Forall_lookup. intros i x Hix.
  pose proof (lookup_lt_Some _ _ _ Hix) as Hlt.
  specialize (H (Z.of_nat i) ltac:(lia)).
  unfold vget in H. destruct (Z.of_nat i <? 0) eqn:E; [lia |].
  rewrite Nat2Z.id, Hix in H. exact H.
Qed.

(** A query component reads three members and leaves the object alone. *)
Lemma component_eq (i l r : Z) (h : Hashing) :
  component i l r h = (result (component i l r) h, h).
Proof. reflexivity. Qed.

Lemma component_value (i l r : Z) (h : Hashing) :
  result (component i l r) h
  = mulMod (subMod (vget 0 (vget [] (hashValues h) i) r)
                   (if l >? 0 then vget 0 (vget [] (hashValues h) i) (l - 1)
                    else 0)
                   (vget 0 (hashPrimes h) i))
           (vget 0 (vget [] (inversePowersOfBase h) i) l)
           (vget 0 (hashPrimes h) i).
Proof. reflexivity. Qed.

Lemma vec_components (h : Hashing) (p0 p1 l r : Z) :
  hashPrimes h = [p0; p1] ->
  result (substringHashVec l r) h
  = [result (component 0 l r) h; result (component 1 l r) h].
Proof.
  intros Hp. unfold result at 1.
  unfold substringHashVec, member, mbind, Method_bind.
  rewrite Hp. change (Z.of_nat (length [p0; p1])) with 2.
  unfold repM. change (Z.to_nat (2 - 0)) with 2%nat.
  cbn [repM_aux]. unfold mbind, Method_bind.
  rewrite !component_eq. reflexivity.
Qed.

Lemma pair_components (h : Hashing) (l r : Z) :
  result (substringHashPair l r) h
  = (result (component 0 l r) h, result (component 1 l r) h).
Proof.
  unfold result at 1. unfold substringHashPair, mbind, Method_bind.
  rewrite !component_eq. reflexivity.
Qed.

Section Results.
Variable s : string.

Local Abbreviation h := (Hashing_new s).
Local Abbreviation len := (Z.of_nat (String.length s)).

Lemma component_0 (l r : Z) :
  0 <= l -> l <= r -> r < len ->
  result (component 0 l r) h
  = poly (code s) 31 l (Z.to_nat (r - l + 1)) mod 1000000009.
Proof.
  intros Hl Hlr Hr.
  rewrite <- (normalized_hash 31 len 1000000009 s good_1000000009)
    by lia.
  rewrite component_value.
  rewrite new_hashValues, new_hashPrimes, new_inversePowersOfBase.
  reflexivity.
Qed.

Lemma component_1 (l r : Z) :
  0 <= l -> l <= r -> r < len ->
  result (component 1 l r) h
  = poly (code s) 31 l (Z.to_nat (r - l + 1)) mod 100000007.
Proof.
  intros Hl Hlr Hr.
  rewrite <- (normalized_hash 31 len 100000007 s good_100000007)
    by lia.
  rewrite component_value.
  rewrite new_hashValues, new_hashPrimes, new_inversePowersOfBase.
  reflexivity.
Qed.

Lemma substringHashVec_poly (l r : Z) :
  0 <= l -> l <= r -> r < len ->
  substringHashVec_of s l r
  = [poly (code s) 31 l (Z.to_nat (r - l + 1)) mod 1000000009;
     poly (code s) 31 l (Z.to_nat (r - l + 1)) mod 100000007].
Proof.
  intros Hl Hlr Hr. unfold substringHashVec_of.
  rewrite (vec_components _ _ _ _ _ (new_hashPrimes s)).
  rewrite component_0, component_1 by assumption.
  reflexivity.
Qed.

Lemma substringHashPair_poly (l r : Z) :
  0 <= l -> l <= r -> r < len ->
  substringHashPair_of s l r
  = (poly (code s) 31 l (Z.to_nat (r - l + 1)) mod 1000000009,
     poly (code s) 31 l (Z.to_nat (r - l + 1)) mod 100000007).
Proof.
  intros Hl Hlr Hr. unfold substringHashPair_of.
  rewrite pair_components.
  rewrite component_0, component_1 by assumption.
  reflexivity.
Qed.
End Results.

(** ** Properties of the engine *)

Lemma substringHashVec_slice (s : string) (l1 r1 l2 r2 : Z) :
  0 <= l1 <= r1 -> r1 < Z.of_nat (String.length s) ->
  0 <= l2 <= r2 -> r2 < Z.of_nat (String.length s) ->
  slice s l1 r1 = slice s l2 r2 ->
  substringHashVec_of s l1 r1 = substringHashVec_of s l2 r2.
Proof.
  intros H1 H1' H2 H2' Heq.
  pose proof (slice_eq_length s l1 r1 l2 r2 H1 H1' H2 H2' Heq) as Hlen.
  pose proof (slice_eq_char s l1 r1 l2 r2 H1 H2 Hlen Heq) as Hch.
  rewrite !substringHashVec_poly by lia.
  rewrite <- Hlen.
  rewrite (poly_ext (code s) (code s) 31 l1 l2); [reflexivity |].
  intros k Hk. unfold code. rewrite Hch by lia. reflexivity.
Qed.

(** C1: in an engine built from a string of lowercase letters, two valid
    index pairs whose substrings are equal character for character get the
    same hash vector (hence the same value under every modulus); and for
    the text "abacaba" the pair hashes of [0..2] and [4..6] coincide. *)
Theorem equal_substrings_equal_hashes (s : string) (l1 r1 l2 r2 : Z) :
  lowercase s = true ->
  0 <= l1 <= r1 -> r1 < Z.of_nat (String.length s) ->
  0 <= l2 <= r2 -> r2 < Z.of_nat (String.length s) ->
  slice s l1 r1 = slice s l2 r2 ->
  substringHashVec_of s l1 r1 = substringHashVec_of s l2 r2 /\
  substringHashPair_of "abacaba" 0 2 = substringHashPair_of "abacaba" 4 6.
Proof.
  intros _ H1 H1' H2 H2' Heq. split.
  - apply substringHashVec_slice; assumption.
  - vm_compute. reflexivity.
Qed.

Lemma equal_substrings_equal_hashes_witness :
  substringHashVec_of "abacaba" 0 2 = substringHashVec_of "abacaba" 4 6 /\
  substringHashPair_of "abacaba" 0 2 = substringHashPair_of "abacaba" 4 6.
Proof.
  apply (equal_substrings_equal_hashes "abacaba" 0 2 4 6).
  - reflexivity.
  - lia.
  - simpl; lia.
  - lia.
  - simpl; lia.
  - reflexivity.
Defined.

(** C2: for a valid query on a constructed engine, the pair form returns
    the first and the second entry of the vector form. *)
Theorem pair_agrees_with_vec (s : string) (l r : Z) :
  0 <= l <= r -> r < n (Hashing_new s) ->
  substringHashPair_of s l r
  = (vget 0 (substringHashVec_of s l r) 0, vget 0 (substringHashVec_of s l r) 1).
Proof.
  intros _ _. unfold substringHashPair_of, substringHashVec_of.
  rewrite pair_components.
  rewrite (vec_components _ _ _ _ _ (new_hashPrimes s)).
  reflexivity.
Qed.

Lemma pair_agrees_with_vec_witness :
  substringHashPair_of "abacaba" 1 5
  = (vget 0 (substringHashVec_of "abacaba" 1 5) 0,
     vget 0 (substringHashVec_of "abacaba" 1 5) 1).
Proof.
  apply (pair_agrees_with_vec "abacaba" 1 5).
  - lia.
  - simpl; lia.
Defined.

Lemma modulus_cases (s : string) (i : Z) :
  0 <= i < Z.of_nat (length (hashPrimes (Hashing_new s))) -> i = 0 \/ i = 1.
Proof. rewrite new_hashPrimes. simpl. lia. Qed.

Lemma tables_row (len p : Z) :
  good_modulus 31 p -> 0 <= len ->
  forall j, 0 <= j <= len ->
    vget 0 (powers_row 31 len p) j = 31 ^ j mod p /\
    in_range p (vget 0 (inverse_row 31 len p (powers_row 31 len p)) j) /\
    (vget 0 (inverse_row 31 len p (powers_row 31 len p)) j
     * vget 0 (powers_row 31 len p) j) mod p = 1.
Proof.
  intros Hgood Hlen j Hj.
  destruct (powers_row_spec 31 len p Hgood Hlen) as [_ Hpw].
  destruct (inverse_row_spec 31 len p Hgood Hlen) as [_ Hipw].
  destruct (Hipw j Hj) as [Hr Hinv].
  rewrite (Hpw j Hj). split; [reflexivity | split; [exact Hr |]].
  rewrite Zmult_mod_idemp_r. exact Hinv.
Qed.

(** C3: after construction, for each modulus index [i] and each exponent
    [0 <= j <= n], [powersOfBase[i][j]] is [31^j mod hashPrimes[i]] and
    [inversePowersOfBase[i][j]] is its inverse modulo [hashPrimes[i]]. *)
Theorem powers_and_inverses (s : string) (i j : Z) :
  0 <= i < Z.of_nat (length (hashPrimes (Hashing_new s))) ->
  0 <= j <= n (Hashing_new s) ->
  vget 0 (vget [] (powersOfBase (Hashing_new s)) i) j
  = 31 ^ j mod vget 0 (hashPrimes (Hashing_new s)) i /\
  (vget 0 (vget [] (inversePowersOfBase (Hashing_new s)) i) j
   * vget 0 (vget [] (powersOfBase (Hashing_new s)) i) j)
  mod vget 0 (hashPrimes (Hashing_new s)) i = 1.
Proof.
  intros Hi Hj. rewrite new_n in Hj.
  rewrite new_powersOfBase, new_inversePowersOfBase, new_hashPrimes.
  destruct (modulus_cases s i Hi) as [-> | ->].
  - change (vget 0 [1000000009; 100000007] 0) with 1000000009.
    destruct (tables_row (Z.of_nat (String.length s)) 1000000009
                good_1000000009 ltac:(lia) j Hj) as (Ha & _ & Hb).
    split; [exact Ha | exact Hb].
  - change (vget 0 [1000000009; 100000007] 1) with 100000007.
    destruct (tables_row (Z.of_nat (String.length s)) 100000007
                good_100000007 ltac:(lia) j Hj) as (Ha & _ & Hb).
    split; [exact Ha | exact Hb].
Qed.

Lemma powers_and_inverses_witness :
  vget 0 (vget [] (powersOfBase (Hashing_new "abacaba")) 1) 7
  = 31 ^ 7 mod vget 0 (hashPrimes (Hashing_new "abacaba")) 1 /\
  (vget 0 (vget [] (inversePowersOfBase (Hashing_new "abacaba")) 1) 7
   * vget 0 (vget [] (powersOfBase (Hashing_new "abacaba")) 1) 7)
  mod vget 0 (hashPrimes (Hashing_new "abacaba")) 1 = 1.
Proof.
  apply (powers_and_inverses "abacaba" 1 7).
  - simpl; lia.
  - simpl; lia.
Defined.

(** C4: for "abacaba" the hashes of the unequal substrings [0..3] ("abac")
    and [3..6] ("caba") differ, in the pair form and in the vector form. *)
Theorem abacaba_no_false_positive :
  substringHashPair_of "abacaba" 0 3 <> substringHashPair_of "abacaba" 3 6 /\
  substringHashVec_of "abacaba" 0 3 <> substringHashVec_of "abacaba" 3 6.
Proof.
  split; vm_compute; intros H; discriminate H.
Qed.

(** C5: in an engine built from lowercase letters, every component of the
    hash of the one-character substring [i..i] is the mapped code
    [text[i] - 'a' + 1] itself, a number between 1 and 26. *)
Theorem single_character_hash (s : string) (i : Z) :
  lowercase s = true ->
  0 <= i < Z.of_nat (String.length s) ->
  Forall (fun x => x = char_at s i - chr_a + 1) (substringHashVec_of s i i) /\
  length (substringHashVec_of s i i) = length (hashPrimes (Hashing_new s)) /\
  1 <= char_at s i - chr_a + 1 <= 26.
Proof.
  intros Hs Hi.
  pose proof (lowercase_code s i Hs Hi) as Hc. unfold code in Hc.
  rewrite substringHashVec_poly by lia.
  replace (Z.to_nat (i - i + 1)) with 1%nat by lia.
  rewrite poly_one. unfold code.
  rewrite !Z.mod_small by lia.
  repeat split; try lia.
  repeat constructor.
Qed.

Lemma single_character_hash_witness :
  Forall (fun x => x = char_at "abacaba" 3 - chr_a + 1)
         (substringHashVec_of "abacaba" 3 3) /\
  length (substringHashVec_of "abacaba" 3 3)
  = length (hashPrimes (Hashing_new "abacaba")) /\
  1 <= char_at "abacaba" 3 - chr_a + 1 <= 26.
Proof.
  apply (single_character_hash "abacaba" 3).
  - reflexivity.
  - simpl; lia.
Defined.

Lemma component_range (i l r : Z) (h : Hashing) :
  0 < vget 0 (hashPrimes h) i ->
  in_range (vget 0 (hashPrimes h) i) (result (component i l r) h).
Proof.
  intros Hp. rewrite component_value. unfold mulMod, in_range.
  apply Z.mod_pos_bound. exact Hp.
Qed.

Lemma rows_in_range (s : string) (p : Z) :
  good_modulus 31 p ->
  Forall (in_range p) (powers_row 31 (Z.of_nat (String.length s)) p) /\
  Forall (in_range p)
    (inverse_row 31 (Z.of_nat (String.length s)) p
       (powers_row 31 (Z.of_nat (String.length s)) p)) /\
  (lowercase s = true ->
   Forall (in_range p)
     (prefix_row s (Z.of_nat (String.length s)) p
        (powers_row 31 (Z.of_nat (String.length s)) p))).
Proof.
  intros Hgood.
  set (len := Z.of_nat (String.length s)).
  assert (Hlen : 0 <= len) by (unfold len; lia).
  assert (Hp : 1 < p) by (destruct Hgood as (_ & Hp & _); exact Hp).
  destruct (powers_row_spec 31 len p Hgood Hlen) as [Lpw Hpw].
  destruct (inverse_row_spec 31 len p Hgood Hlen) as [Lipw Hipw].
  destruct (prefix_row_spec 31 len p Hgood Hlen s) as [Lhv _].
  split; [| split].
  - apply Forall_vget. intros j Hj. rewrite Hpw by lia.
    apply Z.mod_pos_bound. lia.
  - apply Forall_vget. intros j Hj. apply Hipw. lia.
  - intros Hs. apply Forall_vget. intros j Hj.
    apply (prefix_row_range 31 len p Hgood Hlen s); [| lia].
    intros k Hk. pose proof (lowercase_code s k Hs Hk). lia.
Qed.

(** C6, amended: in every constructed engine the entries of
    [powersOfBase[i]] and [inversePowersOfBase[i]] are residues of
    [hashPrimes[i]], and so is every component of a valid vector or pair
    query; the entries of [hashValues[i]] are residues of [hashPrimes[i]]
    when the text consists of lowercase letters. *)
Theorem stored_values_in_range (s : string) (i : Z) :
  0 <= i < Z.of_nat (length (hashPrimes (Hashing_new s))) ->
  Forall (in_range (vget 0 (hashPrimes (Hashing_new s)) i))
         (vget [] (powersOfBase (Hashing_new s)) i) /\
  Forall (in_range (vget 0 (hashPrimes (Hashing_new s)) i))
         (vget [] (inversePowersOfBase (Hashing_new s)) i) /\
  (lowercase s = true ->
   Forall (in_range (vget 0 (hashPrimes (Hashing_new s)) i))
          (vget [] (hashValues (Hashing_new s)) i)) /\
  (forall l r, 0 <= l <= r -> r < n (Hashing_new s) ->
     in_range (vget 0 (hashPrimes (Hashing_new s)) i)
              (vget 0 (substringHashVec_of s l r) i) /\
     in_range (vget 0 (hashPrimes (Hashing_new s)) 0)
              (fst (substringHashPair_of s l r)) /\
     in_range (vget 0 (hashPrimes (Hashing_new s)) 1)
              (snd (substringHashPair_of s l r))).
Proof.
  intros Hi.
  assert (Hq : forall l r,
    in_range (vget 0 (hashPrimes (Hashing_new s)) i)
             (vget 0 (substringHashVec_of s l r) i) /\
    in_range (vget 0 (hashPrimes (Hashing_new s)) 0)
             (fst (substringHashPair_of s l r)) /\
    in_range (vget 0 (hashPrimes (Hashing_new s)) 1)
             (snd (substringHashPair_of s l r))).
  { intros l r. unfold substringHashVec_of, substringHashPair_of.
    rewrite (vec_components _ _ _ _ _ (new_hashPrimes s)), pair_components.
    split; [| split].
    - destruct (modulus_cases s i Hi) as [-> | ->];
        apply (component_range _ l r (Hashing_new s));
        rewrite new_hashPrimes; reflexivity.
    - apply (component_range 0 l r (Hashing_new s)).
      rewrite new_hashPrimes; reflexivity.
    - apply (component_range 1 l r (Hashing_new s)).
      rewrite new_hashPrimes; reflexivity. }
  rewrite new_powersOfBase, new_inversePowersOfBase, new_hashValues.
  destruct (modulus_cases s i Hi) as [-> | ->].
  - destruct (rows_in_range s 1000000009 good_1000000009)
      as (Ha & Hb & Hc).
    split; [exact Ha | split; [exact Hb | split; [exact Hc |]]].
    intros l r _ _. apply Hq.
  - destruct (rows_in_range s 100000007 good_100000007)
      as (Ha & Hb & Hc).
    split; [exact Ha | split; [exact Hb | split; [exact Hc |]]].
    intros l r _ _. apply Hq.
Qed.

Lemma stored_values_in_range_witness :
  Forall (in_range (vget 0 (hashPrimes (Hashing_new "abacaba")) 1))
         (vget [] (powersOfBase (Hashing_new "abacaba")) 1) /\
  Forall (in_range (vget 0 (hashPrimes (Hashing_new "abacaba")) 1))
         (vget [] (inversePowersOfBase (Hashing_new "abacaba")) 1) /\
  (lowercase "abacaba" = true ->
   Forall (in_range (vget 0 (hashPrimes (Hashing_new "abacaba")) 1))
          (vget [] (hashValues (Hashing_new "abacaba")) 1)) /\
  (forall l r, 0 <= l <= r -> r < n (Hashing_new "abacaba") ->
     in_range (vget 0 (hashPrimes (Hashing_new "abacaba")) 1)
              (vget 0 (substringHashVec_of "abacaba" l r) 1) /\
     in_range (vget 0 (hashPrimes (Hashing_new "abacaba")) 0)
              (fst (substringHashPair_of "abacaba" l r)) /\
     in_range (vget 0 (hashPrimes (Hashing_new "abacaba")) 1)
              (snd (substringHashPair_of "abacaba" l r))).
Proof.
  apply (stored_values_in_range "abacaba" 1).
  simpl; lia.
Defined.

(** The text "A" is outside the alphabet of the mapping: its code is
    ['A' - 'a' + 1 = -31], and [%] keeps the sign. *)
Lemma uppercase_prefix_hash :
  vget 0 (vget [] (hashValues (Hashing_new "A")) 0) 0 = -31.
Proof. vm_compute. reflexivity. Qed.

(** C6 as stated fails: the engine built from "A" stores [-31] in
    [hashValues[0]], which is not in [0, hashPrimes[0]). *)
Lemma uppercase_tables_not_in_range : ~ tables_in_range (Hashing_new "A").
Proof.
  intros H. destruct (H 0) as (_ & _ & Hv); [simpl; lia |].
  apply (Forall_lookup_1 _ _ 0%nat (-31)) in Hv; [| vm_compute; reflexivity].
  unfold in_range in Hv. lia.
Qed.

(** ** Queries are read-only *)

Lemma repM_aux_after {S : Type} (body : Z -> S -> Method S) :
  (forall i s h, after (body i s) h = h) ->
  forall (k : nat) (i : Z) (s : S) (h : Hashing),
    after (repM_aux k i body s) h = h.
Proof.
  intros Hbody k. induction k as [| k IH]; intros i s h; cbn [repM_aux].
  - reflexivity.
  - unfold after, mbind, Method_bind.
    pose proof (Hbody i s h) as Hb. unfold after in Hb.
    destruct (body i s h) as [s' h']. simpl in Hb. subst h'.
    apply IH.
Qed.

(** C7: neither query modifies the engine: whatever the object [h] and the
    arguments, the object left behind by [substringHashVec] and by
    [substringHashPair] is [h] itself, with all seven members. *)
Theorem queries_read_only (h : Hashing) (l r : Z) :
  after (substringHashVec l r) h = h /\
  after (substringHashPair l r) h = h.
Proof.
  split.
  - unfold substringHashVec, repM.
    change (after (repM_aux (Z.to_nat (Z.of_nat (length (hashPrimes h)) - 0)) 0
                     (fun i hash => x ← component i l r; mret (vset hash i x))
                     (resize 0 (Z.of_nat (length (hashPrimes h))))) h = h).
    apply repM_aux_after.
    intros i s h0. reflexivity.
  - reflexivity.
Qed.

(** ** 64-bit words *)

Lemma u64_range (z : Z) : 0 <= u64 z < 2 ^ 64.
Proof. unfold u64. apply Z.mod_pos_bound. lia. Qed.

Lemma u64_small (z : Z) : 0 <= z < 2 ^ 64 -> u64 z = z.
Proof. intros H. unfold u64. apply Z.mod_small. exact H. Qed.

Lemma u64_lxor (a b : Z) : u64 (Z.lxor a b) = Z.lxor (u64 a) (u64 b).
Proof.
  unfold u64. apply Z.bits_inj'. intros i Hi.
  rewrite Z.lxor_spec, !Z.testbit_mod_pow2, Z.lxor_spec by lia.
  destruct (i <? 64); reflexivity.
Qed.

Lemma lxor_u64_range (a b : Z) :
  0 <= a < 2 ^ 64 -> 0 <= b < 2 ^ 64 -> 0 <= Z.lxor a b < 2 ^ 64.
Proof.
  intros Ha Hb.
  rewrite <- (u64_small a Ha), <- (u64_small b Hb), <- u64_lxor.
  apply u64_range.
Qed.

Lemma shiftr_u64_range (a k : Z) :
  0 <= k -> 0 <= a < 2 ^ 64 -> 0 <= Z.shiftr a k < 2 ^ 64.
Proof.
  intros Hk Ha. rewrite Z.shiftr_div_pow2 by lia.
  assert (0 < 2 ^ k) by (apply Z.pow_pos_nonneg; lia).
  split.
  - apply Z.div_pos; lia.
  - apply Z.div_lt_upper_bound; nia.
Qed.

Lemma lxor_swap (a b c d : Z) :
  Z.lxor a d = Z.lxor b c -> Z.lxor a b = Z.lxor c d.
Proof.
  intros H. apply Z.bits_inj'. intros i Hi.
  apply (f_equal (fun z => Z.testbit z i)) in H.
  rewrite !Z.lxor_spec in *.
  destruct (Z.testbit a i), (Z.testbit b i), (Z.testbit c i),
    (Z.testbit d i); simpl in *; congruence.
Qed.

(** Adding a constant is one-to-one on words. *)
Lemma u64_add_inj (c x y : Z) :
  0 <= x < 2 ^ 64 -> 0 <= y < 2 ^ 64 ->
  u64 (x + c) = u64 (y + c) -> x = y.
Proof.
  intros Hx Hy H. unfold u64 in H.
  pose proof (Z.div_mod (x + c) (2 ^ 64) ltac:(lia)) as Ex.
  pose proof (Z.div_mod (y + c) (2 ^ 64) ltac:(lia)) as Ey.
  rewrite H in Ex. lia.
Qed.

(** Multiplying by a unit of [Z/2^64] is one-to-one on words. *)
Lemma u64_mul_inj (c c' x y : Z) :
  u64 (c * c') = 1 ->
  0 <= x < 2 ^ 64 -> 0 <= y < 2 ^ 64 ->
  u64 (x * c) = u64 (y * c) -> x = y.
Proof.
  intros Hc Hx Hy H.
  assert (E : forall z, 0 <= z < 2 ^ 64 -> z = u64 (u64 (z * c) * c')).
  { intros z Hz. unfold u64 in *.
    rewrite Zmult_mod_idemp_l, <- Z.mul_assoc, <- Zmult_mod_idemp_r, Hc.
    rewrite Z.mul_1_r, Z.mod_small; [reflexivity | exact Hz]. }
  rewrite (E x Hx), (E y Hy), H. reflexivity.
Qed.

(** [x ^ (x >> k)] is one-to-one on non-negative integers. *)
Lemma xorshift_inj (k x y : Z) :
  0 < k -> 0 <= x -> 0 <= y ->
  Z.lxor x (Z.shiftr x k) = Z.lxor y (Z.shiftr y k) -> x = y.
Proof.
  intros Hk Hx Hy H.
  apply Z.lxor_eq.
  set (d := Z.lxor x y).
  assert (Hd : 0 <= d) by (apply Z.lxor_nonneg; tauto).
  assert (E : Z.lxor d (Z.shiftr d k) = 0).
  { unfold d. rewrite Z.shiftr_lxor, (lxor_swap x y _ _ H).
    rewrite (Z.lxor_comm (Z.shiftr y k)). apply Z.lxor_nilpotent. }
  apply Z.lxor_eq in E. rewrite Z.shiftr_div_pow2 in E by lia.
  destruct (Z.eq_dec d 0) as [E0 | Hne]; [exact E0 | exfalso].
  assert (1 < 2 ^ k) by (apply Z.pow_gt_1; lia).
  pose proof (Z.div_lt d (2 ^ k) ltac:(lia) ltac:(lia)). lia.
Qed.

(** A word that equals its own left shift by one is zero. *)
Lemma shiftl1_fixpoint (d : Z) :
  0 <= d < 2 ^ 64 -> d = u64 (Z.shiftl d 1) -> d = 0.
Proof.
  intros Hd H. unfold u64 in H. rewrite Z.shiftl_mul_pow2 in H by lia.
  pose proof (Z.div_mod (d * 2 ^ 1) (2 ^ 64) ltac:(lia)) as E.
  rewrite <- H in E. lia.
Qed.

(** ** The hash functors *)

Lemma splitmix64_range (x : Z) : 0 <= custom_hash.splitmix64 x < 2 ^ 64.
Proof.
  unfold custom_hash.splitmix64.
  apply lxor_u64_range; [| apply shiftr_u64_range; [lia |]]; apply u64_range.
Qed.

Lemma splitmix64_inj (x y : Z) :
  0 <= x < 2 ^ 64 -> 0 <= y < 2 ^ 64 ->
  custom_hash.splitmix64 x = custom_hash.splitmix64 y -> x = y.
Proof.
  intros Hx Hy H. unfold custom_hash.splitmix64 in H.
  apply xorshift_inj in H; [| lia | apply u64_range | apply u64_range].
  apply (u64_mul_inj _ 0x319642b2d24d8ec3) in H;
    [| vm_compute; reflexivity
     | apply lxor_u64_range; [| apply shiftr_u64_range; [lia |]];
       apply u64_range ..].
  apply xorshift_inj in H; [| lia | apply u64_range | apply u64_range].
  apply (u64_mul_inj _ 0x96de1b173f119089) in H;
    [| vm_compute; reflexivity
     | apply lxor_u64_range; [| apply shiftr_u64_range; [lia |]];
       apply u64_range ..].
  apply xorshift_inj in H; [| lia | apply u64_range | apply u64_range].
  apply (u64_add_inj _ x y Hx Hy H).
Qed.

Lemma custom_hash_inj (seed x y : Z) :
  0 <= x < 2 ^ 64 -> 0 <= y < 2 ^ 64 ->
  custom_hash.call seed x = custom_hash.call seed y -> x = y.
Proof.
  intros Hx Hy H. unfold custom_hash.call in H.
  apply splitmix64_inj in H; [| apply u64_range ..].
  apply (u64_add_inj _ x y Hx Hy H).
Qed.

Lemma custom_hash_range (seed x : Z) : 0 <= custom_hash.call seed x < 2 ^ 64.
Proof. apply splitmix64_range. Qed.

Lemma u64_signed_inj (a b : Z) :
  - 2 ^ 63 <= a < 2 ^ 63 -> - 2 ^ 63 <= b < 2 ^ 63 ->
  u64 a = u64 b -> a = b.
Proof.
  intros Ha Hb H. unfold u64 in H.
  pose proof (Z.div_mod a (2 ^ 64) ltac:(lia)) as Ea.
  pose proof (Z.div_mod b (2 ^ 64) ltac:(lia)) as Eb.
  rewrite H in Ea. lia.
Qed.

(** C8: whatever the seed, [pair_hash] tells the pair [(a, b)] of two
    different 64-bit integers from the swapped pair [(b, a)]. *)
Theorem pair_hash_order_sensitive (seed a b : Z) :
  - 2 ^ 63 <= a < 2 ^ 63 -> - 2 ^ 63 <= b < 2 ^ 63 ->
  a <> b ->
  pair_hash.call seed (a, b) <> pair_hash.call seed (b, a).
Proof.
  intros Ha Hb Hab H. unfold pair_hash.call in H. cbn [fst snd] in H.
  set (h1 := custom_hash.call seed (u64 a)) in *.
  set (h2 := custom_hash.call seed (u64 b)) in *.
  assert (R1 : 0 <= h1 < 2 ^ 64) by apply custom_hash_range.
  assert (R2 : 0 <= h2 < 2 ^ 64) by apply custom_hash_range.
  assert (D : Z.lxor h1 h2 = u64 (Z.shiftl (Z.lxor h1 h2) 1)).
  { rewrite Z.shiftl_lxor, u64_lxor. apply lxor_swap. exact H. }
  apply shiftl1_fixpoint in D; [| apply lxor_u64_range; assumption].
  apply Z.lxor_eq in D.
  apply custom_hash_inj in D; [| apply u64_range ..].
  apply Hab. apply u64_signed_inj; assumption.
Qed.

Lemma pair_hash_order_sensitive_witness :
  pair_hash.call 42 (1, 2) <> pair_hash.call 42 (2, 1).
Proof.
  apply (pair_hash_order_sensitive 42 1 2).
  - lia.
  - lia.
  - lia.
Defined.

(** C9: whatever the seed, [vector_hash] of the empty vector is 0, and of
    a one-element vector [x] it is [custom_hash(x) + 0x9e3779b9] in 64-bit
    wrap-around arithmetic. *)
Theorem vector_hash_empty_and_singleton (seed x : Z) :
  vector_hash.call seed [] = 0 /\
  vector_hash.call seed [x]
  = u64 (custom_hash.call seed (u64 x) + 0x9e3779b9).
Proof.
  split; [reflexivity |].
  unfold vector_hash.call. cbn [fold_left].
  rewrite Z.lxor_0_l, Z.shiftl_0_l, Z.shiftr_0_l.
  change (u64 0) with 0. rewrite !Z.add_0_r. reflexivity.
Qed.

(** C10: whatever the seed, [custom_hash] sends different 64-bit keys to
    different values: every step of [splitmix64] (adding a constant,
    xor with a right shift, multiplying by an odd constant) is one-to-one
    on 64-bit words. *)
Theorem custom_hash_injective (seed x y : Z) :
  0 <= x < 2 ^ 64 -> 0 <= y < 2 ^ 64 ->
  x <> y ->
  custom_hash.call seed x <> custom_hash.call seed y.
Proof.
  intros Hx Hy Hxy H. apply Hxy.
  apply (custom_hash_inj seed); assumption.
Qed.

Lemma custom_hash_injective_witness :
  custom_hash.call 0 0 <> custom_hash.call 0 1.
Proof.
  apply (custom_hash_injective 0 0 1).
  - lia.
  - lia.
  - lia.
Defined.

(** * Further properties of the engine *)

(** ** Slices of two texts *)

Lemma char_val_inj (c1 c2 : ascii) : char_val c1 = char_val c2 -> c1 = c2.
Proof.
  unfold char_val. intros H.
  pose proof (nat_ascii_bounded c1). pose proof (nat_ascii_bounded c2).
  assert (E : nat_of_ascii c1 = nat_of_ascii c2).
  { destruct (Z.of_nat (nat_of_ascii c1) <? 128) eqn:E1;
      destruct (Z.of_nat (nat_of_ascii c2) <? 128) eqn:E2; lia. }
  rewrite <- (ascii_nat_embedding c1), <- (ascii_nat_embedding c2), E.
  reflexivity.
Qed.

Lemma slices_eq_length (s1 s2 : string) (l1 r1 l2 r2 : Z) :
  0 <= l1 <= r1 -> r1 < Z.of_nat (String.length s1) ->
  0 <= l2 <= r2 -> r2 < Z.of_nat (String.length s2) ->
  slice s1 l1 r1 = slice s2 l2 r2 -> r1 - l1 = r2 - l2.
Proof.
  intros H1 H1' H2 H2' Heq. unfold slice in Heq.
  destruct (Z.lt_trichotomy (r1 - l1) (r2 - l2)) as [Hlt | [Hq | Hgt]];
    [| exact Hq |]; exfalso.
  - pose proof (substring_correct1 s2 (Z.to_nat l2) (Z.to_nat (r2 - l2 + 1))
                  (Z.to_nat (r1 - l1 + 1))) as Ha.
    pose proof (substring_correct2 s1 (Z.to_nat l1) (Z.to_nat (r1 - l1 + 1))
                  (Z.to_nat (r1 - l1 + 1))) as Hb.
    rewrite <- Heq, Hb in Ha by lia.
    destruct (get_some s2 (Z.to_nat (r1 - l1 + 1) + Z.to_nat l2)) as [c Hc];
      [lia |].
    rewrite Hc in Ha. specialize (Ha ltac:(lia)). discriminate.
  - pose proof (substring_correct1 s1 (Z.to_nat l1) (Z.to_nat (r1 - l1 + 1))
                  (Z.to_nat (r2 - l2 + 1))) as Ha.
    pose proof (substring_correct2 s2 (Z.to_nat l2) (Z.to_nat (r2 - l2 + 1))
                  (Z.to_nat (r2 - l2 + 1))) as Hb.
    rewrite Heq, Hb in Ha by lia.
    destruct (get_some s1 (Z.to_nat (r2 - l2 + 1) + Z.to_nat l1)) as [c Hc];
      [lia |].
    rewrite Hc in Ha. specialize (Ha ltac:(lia)). discriminate.
Qed.

Lemma slices_eq_char (s1 s2 : string) (l1 r1 l2 r2 : Z) :
  0 <= l1 <= r1 -> 0 <= l2 <= r2 -> r1 - l1 = r2 - l2 ->
  slice s1 l1 r1 = slice s2 l2 r2 ->
  forall k, 0 <= k <= r1 - l1 -> char_at s1 (l1 + k) = char_at s2 (l2 + k).
Proof.
  intros H1 H2 Hlen Heq k Hk. unfold slice in Heq. unfold char_at.
  destruct (l1 + k <? 0) eqn:E1; [lia |].
  destruct (l2 + k <? 0) eqn:E2; [lia |].
  replace (Z.to_nat (l1 + k)) with (Z.to_nat k + Z.to_nat l1)%nat by lia.
  replace (Z.to_nat (l2 + k)) with (Z.to_nat k + Z.to_nat l2)%nat by lia.
  rewrite <- (substring_correct1 s1 _ (Z.to_nat (r1 - l1 + 1))) by lia.
  rewrite <- (substring_correct1 s2 _ (Z.to_nat (r2 - l2 + 1))) by lia.
  rewrite Heq. reflexivity.
Qed.

(** Conversely, slices of the same length with the same characters are
    equal strings. *)
Lemma slices_char_eq (s1 s2 : string) (l1 r1 l2 r2 : Z) :
  0 <= l1 <= r1 -> r1 < Z.of_nat (String.length s1) ->
  0 <= l2 <= r2 -> r2 < Z.of_nat (String.length s2) ->
  r1 - l1 = r2 - l2 ->
  (forall k, 0 <= k <= r1 - l1 -> char_at s1 (l1 + k) = char_at s2 (l2 + k)) ->
  slice s1 l1 r1 = slice s2 l2 r2.
Proof.
  intros H1 H1' H2 H2' Hlen Hch. unfold slice.
  apply get_correct. intros q. rewrite <- Hlen.
  destruct (Nat.lt_ge_cases q (Z.to_nat (r1 - l1 + 1))) as [Hq | Hq].
  - rewrite !substring_correct1 by exact Hq.
    specialize (Hch (Z.of_nat q) ltac:(lia)). unfold char_at in Hch.
    destruct (l1 + Z.of_nat q <? 0) eqn:E1; [lia |].
    destruct (l2 + Z.of_nat q <? 0) eqn:E2; [lia |].
    replace (Z.to_nat (l1 + Z.of_nat q)) with (q + Z.to_nat l1)%nat in Hch
      by lia.
    replace (Z.to_nat (l2 + Z.of_nat q)) with (q + Z.to_nat l2)%nat in Hch
      by lia.
    destruct (get_some s1 (q + Z.to_nat l1)) as [c1 Hc1]; [lia |].
    destruct (get_some s2 (q + Z.to_nat l2)) as [c2 Hc2]; [lia |].
    rewrite Hc1, Hc2 in *. f_equal. apply char_val_inj. exact Hch.
  - rewrite !substring_correct2 by exact Hq. reflexivity.
Qed.

(** ** Polynomial hashes as numerals *)

Lemma poly_split_at (c : Z -> Z) (b l : Z) (k1 k2 : nat) :
  poly c b l (k1 + k2)
  = poly c b l k1 + b ^ Z.of_nat k1 * poly c b (l + Z.of_nat k1) k2.
Proof.
  induction k2 as [| k2 IH].
  - rewrite Nat.add_0_r. simpl. ring.
  - rewrite Nat.add_succ_r. cbn [poly]. rewrite IH.
    rewrite Nat2Z.inj_add, Z.pow_add_r by lia.
    replace (l + (Z.of_nat k1 + Z.of_nat k2))
      with (l + Z.of_nat k1 + Z.of_nat k2) by ring.
    ring.
Qed.

(** With digits between 1 and 26 a polynomial hash in base 31 is a numeral
    without leading zero: it determines its length and its digits. *)
Lemma poly_numeral_bounds (c : Z -> Z) (l : Z) (len : nat) :
  (forall k, 0 <= k < Z.of_nat len -> 1 <= c (l + k) <= 26) ->
  0 <= poly c 31 l len < 31 ^ Z.of_nat len /\
  ((0 < len)%nat -> 31 ^ (Z.of_nat len - 1) <= poly c 31 l len).
Proof.
  induction len as [| len IH]; intros Hd.
  - simpl. split; [lia | intros H; lia].
  - destruct IH as [IH _]; [intros k Hk; apply Hd; lia |].
    cbn [poly]. specialize (Hd (Z.of_nat len) ltac:(lia)).
    assert (Hpow : 0 < 31 ^ Z.of_nat len) by (apply Z.pow_pos_nonneg; lia).
    replace (Z.of_nat (Datatypes.S len)) with (Z.of_nat len + 1) by lia.
    rewrite Z.pow_add_r, Z.pow_1_r by lia.
    replace (Z.of_nat len + 1 - 1) with (Z.of_nat len) by lia.
    split; [nia | intros _; nia].
Qed.

Lemma poly_numeral_length (c1 c2 : Z -> Z) (l1 l2 : Z) (n1 n2 : nat) :
  (forall k, 0 <= k < Z.of_nat n1 -> 1 <= c1 (l1 + k) <= 26) ->
  (forall k, 0 <= k < Z.of_nat n2 -> 1 <= c2 (l2 + k) <= 26) ->
  (n1 < n2)%nat -> poly c1 31 l1 n1 < poly c2 31 l2 n2.
Proof.
  intros H1 H2 Hlt.
  destruct (poly_numeral_bounds c1 l1 n1 H1) as [[_ Hu] _].
  destruct (poly_numeral_bounds c2 l2 n2 H2) as [_ Hl].
  specialize (Hl ltac:(lia)).
  assert (31 ^ Z.of_nat n1 <= 31 ^ (Z.of_nat n2 - 1))
    by (apply Z.pow_le_mono_r; lia).
  lia.
Qed.

Lemma poly_numeral_digits (c1 c2 : Z -> Z) (l1 l2 : Z) (len : nat) :
  (forall k, 0 <= k < Z.of_nat len -> 1 <= c1 (l1 + k) <= 26) ->
  (forall k, 0 <= k < Z.of_nat len -> 1 <= c2 (l2 + k) <= 26) ->
  poly c1 31 l1 len = poly c2 31 l2 len ->
  forall k, 0 <= k < Z.of_nat len -> c1 (l1 + k) = c2 (l2 + k).
Proof.
  induction len as [| len IH]; intros H1 H2 Heq k Hk; [lia |].
  destruct (poly_numeral_bounds c1 l1 len) as [B1 _];
    [intros j Hj; apply H1; lia |].
  destruct (poly_numeral_bounds c2 l2 len) as [B2 _];
    [intros j Hj; apply H2; lia |].
  cbn [poly] in Heq.
  assert (Hpow : 0 < 31 ^ Z.of_nat len) by (apply Z.pow_pos_nonneg; lia).
  assert (Htop : c1 (l1 + Z.of_nat len) = c2 (l2 + Z.of_nat len)) by nia.
  destruct (Z.eq_dec k (Z.of_nat len)) as [-> | Hne]; [exact Htop |].
  apply IH;
    [intros j Hj; apply H1; lia | intros j Hj; apply H2; lia
    | rewrite Htop in Heq; lia | lia].
Qed.

(** Two numbers below the product of the two default moduli that agree
    modulo both of them are equal. *)
Lemma remainders_determine (x y : Z) :
  0 <= x < 1000000009 * 100000007 -> 0 <= y < 1000000009 * 100000007 ->
  x mod 1000000009 = y mod 1000000009 ->
  x mod 100000007 = y mod 100000007 ->
  x = y.
Proof.
  intros Hx Hy E1 E2.
  assert (D1 : (1000000009 | x - y)).
  { apply Z.mod_divide; [lia |]. rewrite Zminus_mod, E1, Z.sub_diag.
    reflexivity. }
  assert (D2 : (100000007 | x - y)).
  { apply Z.mod_divide; [lia |]. rewrite Zminus_mod, E2, Z.sub_diag.
    reflexivity. }
  destruct D1 as [q Hq]. rewrite Hq, Z.mul_comm in D2.
  apply Z.gauss in D2; [| vm_compute; reflexivity].
  destruct D2 as [t Ht]. subst q. nia.
Qed.

(** ** The tables and the queries, modulus by modulus *)

Lemma engine_row (s : string) (i : Z) :
  0 <= i < Z.of_nat (length (hashPrimes (Hashing_new s))) ->
  exists p,
    good_modulus 31 p /\
    vget 0 (hashPrimes (Hashing_new s)) i = p /\
    vget [] (powersOfBase (Hashing_new s)) i
    = powers_row 31 (Z.of_nat (String.length s)) p /\
    vget [] (inversePowersOfBase (Hashing_new s)) i
    = inverse_row 31 (Z.of_nat (String.length s)) p
        (powers_row 31 (Z.of_nat (String.length s)) p) /\
    vget [] (hashValues (Hashing_new s)) i
    = prefix_row s (Z.of_nat (String.length s)) p
        (powers_row 31 (Z.of_nat (String.length s)) p) /\
    forall l r, 0 <= l <= r -> r < Z.of_nat (String.length s) ->
      vget 0 (substringHashVec_of s l r) i
      = poly (code s) 31 l (Z.to_nat (r - l + 1)) mod p.
Proof.
  intros Hi.
  rewrite new_hashPrimes, new_powersOfBase, new_inversePowersOfBase,
    new_hashValues.
  destruct (modulus_cases s i Hi) as [-> | ->].
  - exists 1000000009. split; [exact good_1000000009 |].
    do 4 (split; [reflexivity |]).
    intros l r Hl Hr. rewrite substringHashVec_poly by lia. reflexivity.
  - exists 100000007. split; [exact good_100000007 |].
    do 4 (split; [reflexivity |]).
    intros l r Hl Hr. rewrite substringHashVec_poly by lia. reflexivity.
Qed.

Lemma inverse_unique (p x a c : Z) :
  0 <= a < p -> 0 <= c < p ->
  (a * x) mod p = 1 -> (c * x) mod p = 1 -> a = c.
Proof.
  intros Ha Hc Ea Ec.
  rewrite <- (Z.mod_small a p Ha), <- (Z.mod_small c p Hc).
  transitivity ((a * (c * x)) mod p).
  - rewrite <- Zmult_mod_idemp_r, Ec, Z.mul_1_r. reflexivity.
  - replace (a * (c * x)) with (c * (a * x)) by ring.
    rewrite <- Zmult_mod_idemp_r, Ea, Z.mul_1_r. reflexivity.
Qed.

(** X1: every component of a valid query is the polynomial hash of the
    substring itself, [sum_k (text[l+k] - 'a' + 1) * 31^k], reduced modulo
    the component's prime: the offset [l] has been divided out.  This holds
    for every text, also outside the lowercase alphabet. *)
Theorem query_is_polynomial_hash (s : string) (l r : Z) :
  0 <= l <= r -> r < n (Hashing_new s) ->
  substringHashVec_of s l r
  = map (fun p => poly (code s) 31 l (Z.to_nat (r - l + 1)) mod p)
        (hashPrimes (Hashing_new s)) /\
  substringHashPair_of s l r
  = (poly (code s) 31 l (Z.to_nat (r - l + 1))
       mod vget 0 (hashPrimes (Hashing_new s)) 0,
     poly (code s) 31 l (Z.to_nat (r - l + 1))
       mod vget 0 (hashPrimes (Hashing_new s)) 1).
Proof.
  intros Hl Hr. rewrite new_n in Hr.
  rewrite substringHashVec_poly, substringHashPair_poly by lia.
  rewrite new_hashPrimes. split; reflexivity.
Qed.

Lemma query_is_polynomial_hash_witness :
  substringHashVec_of "abacaba" 2 5
  = map (fun p => poly (code "abacaba") 31 2 (Z.to_nat (5 - 2 + 1)) mod p)
        (hashPrimes (Hashing_new "abacaba")) /\
  substringHashPair_of "abacaba" 2 5
  = (poly (code "abacaba") 31 2 (Z.to_nat (5 - 2 + 1))
       mod vget 0 (hashPrimes (Hashing_new "abacaba")) 0,
     poly (code "abacaba") 31 2 (Z.to_nat (5 - 2 + 1))
       mod vget 0 (hashPrimes (Hashing_new "abacaba")) 1).
Proof.
  apply (query_is_polynomial_hash "abacaba" 2 5).
  - lia.
  - simpl; lia.
Defined.

(** X2: hashes of different engines are comparable: equal substrings of
    two texts get the same hash vector and the same hash pair from the two
    engines. *)
Theorem equal_slices_of_two_texts (s1 s2 : string) (l1 r1 l2 r2 : Z) :
  0 <= l1 <= r1 -> r1 < n (Hashing_new s1) ->
  0 <= l2 <= r2 -> r2 < n (Hashing_new s2) ->
  slice s1 l1 r1 = slice s2 l2 r2 ->
  substringHashVec_of s1 l1 r1 = substringHashVec_of s2 l2 r2 /\
  substringHashPair_of s1 l1 r1 = substringHashPair_of s2 l2 r2.
Proof.
  intros H1 H1' H2 H2' Heq. rewrite new_n in H1', H2'.
  pose proof (slices_eq_length s1 s2 l1 r1 l2 r2 H1 H1' H2 H2' Heq) as Hlen.
  pose proof (slices_eq_char s1 s2 l1 r1 l2 r2 H1 H2 Hlen Heq) as Hch.
  rewrite !substringHashVec_poly, !substringHashPair_poly by lia.
  rewrite <- Hlen.
  rewrite (poly_ext (code s1) (code s2) 31 l1 l2);
    [split; reflexivity |].
  intros k Hk. unfold code. rewrite Hch by lia. reflexivity.
Qed.

Lemma equal_slices_of_two_texts_witness :
  substringHashVec_of "abacaba" 1 3 = substringHashVec_of "xbacy" 1 3 /\
  substringHashPair_of "abacaba" 1 3 = substringHashPair_of "xbacy" 1 3.
Proof.
  apply (equal_slices_of_two_texts "abacaba" "xbacy" 1 3 1 3).
  - lia.
  - simpl; lia.
  - lia.
  - simpl; lia.
  - reflexivity.
Defined.

(** X3: hashes compose under concatenation: for [l <= m < r] the hash of
    [text[l..r]] is the hash of [text[l..m]] plus [31^(m-l+1)] times the
    hash of [text[m+1..r]], modulo the component's prime. *)
Theorem hash_of_concatenation (s : string) (l m r i : Z) :
  0 <= l <= m -> m < r -> r < n (Hashing_new s) ->
  0 <= i < Z.of_nat (length (hashPrimes (Hashing_new s))) ->
  vget 0 (substringHashVec_of s l r) i
  = (vget 0 (substringHashVec_of s l m) i
     + 31 ^ (m - l + 1) * vget 0 (substringHashVec_of s (m + 1) r) i)
    mod vget 0 (hashPrimes (Hashing_new s)) i.
Proof.
  intros Hl Hm Hr Hi. rewrite new_n in Hr.
  destruct (engine_row s i Hi) as (p & _ & -> & _ & _ & _ & Hq).
  rewrite !Hq by lia.
  rewrite Zplus_mod_idemp_l.
  rewrite <- Zplus_mod_idemp_r, Zmult_mod_idemp_r, Zplus_mod_idemp_r.
  f_equal.
  replace (Z.to_nat (r - l + 1))
    with (Z.to_nat (m - l + 1) + Z.to_nat (r - (m + 1) + 1))%nat by lia.
  rewrite poly_split_at, Z2Nat.id by lia.
  replace (l + (m - l + 1)) with (m + 1) by ring.
  reflexivity.
Qed.

Lemma hash_of_concatenation_witness :
  vget 0 (substringHashVec_of "abacaba" 1 5) 1
  = (vget 0 (substringHashVec_of "abacaba" 1 2) 1
     + 31 ^ (2 - 1 + 1) * vget 0 (substringHashVec_of "abacaba" (2 + 1) 5) 1)
    mod vget 0 (hashPrimes (Hashing_new "abacaba")) 1.
Proof.
  apply (hash_of_concatenation "abacaba" 1 2 5 1).
  - lia.
  - lia.
  - simpl; lia.
  - simpl; lia.
Defined.

Lemma lowercase_digits (s : string) (l : Z) (len : nat) :
  lowercase s = true ->
  0 <= l -> l + Z.of_nat len <= Z.of_nat (String.length s) ->
  forall k, 0 <= k < Z.of_nat len -> 1 <= code s (l + k) <= 26.
Proof.
  intros Hs Hl Hlen k Hk. apply lowercase_code; [exact Hs | lia].
Qed.

(** X4: on lowercase texts the pair hash is exact for short substrings:
    two substrings of at most 11 characters (of one text or of two) with
    the same hash pair are equal strings, whatever their lengths.  (Their
    polynomial hashes are numerals below [31^11], which is less than the
    product of the two moduli.) *)
Theorem short_substrings_no_collision (s1 s2 : string) (l1 r1 l2 r2 : Z) :
  lowercase s1 = true -> lowercase s2 = true ->
  0 <= l1 <= r1 -> r1 < n (Hashing_new s1) -> r1 - l1 < 11 ->
  0 <= l2 <= r2 -> r2 < n (Hashing_new s2) -> r2 - l2 < 11 ->
  substringHashPair_of s1 l1 r1 = substringHashPair_of s2 l2 r2 ->
  slice s1 l1 r1 = slice s2 l2 r2.
Proof.
  intros Hs1 Hs2 H1 H1' S1 H2 H2' S2 Heq. rewrite new_n in H1', H2'.
  rewrite !substringHashPair_poly in Heq by lia.
  injection Heq as E1 E2.
  set (n1 := Z.to_nat (r1 - l1 + 1)) in *.
  set (n2 := Z.to_nat (r2 - l2 + 1)) in *.
  assert (D1 : forall k, 0 <= k < Z.of_nat n1 -> 1 <= code s1 (l1 + k) <= 26)
    by (apply lowercase_digits; [exact Hs1 | lia | unfold n1; lia]).
  assert (D2 : forall k, 0 <= k < Z.of_nat n2 -> 1 <= code s2 (l2 + k) <= 26)
    by (apply lowercase_digits; [exact Hs2 | lia | unfold n2; lia]).
  destruct (poly_numeral_bounds (code s1) l1 n1 D1) as [B1 _].
  destruct (poly_numeral_bounds (code s2) l2 n2 D2) as [B2 _].
  assert (Hbig : 31 ^ 11 < 1000000009 * 100000007) by reflexivity.
  assert (P1 : 31 ^ Z.of_nat n1 <= 31 ^ 11)
    by (apply Z.pow_le_mono_r; unfold n1; lia).
  assert (P2 : 31 ^ Z.of_nat n2 <= 31 ^ 11)
    by (apply Z.pow_le_mono_r; unfold n2; lia).
  assert (E : poly (code s1) 31 l1 n1 = poly (code s2) 31 l2 n2)
    by (apply remainders_determine; [lia | lia | exact E1 | exact E2]).
  assert (Hn : n1 = n2).
  { destruct (Nat.lt_trichotomy n1 n2) as [Hlt | [Hq | Hgt]];
      [| exact Hq |]; exfalso.
    - pose proof (poly_numeral_length _ _ l1 l2 n1 n2 D1 D2 Hlt). lia.
    - pose proof (poly_numeral_length _ _ l2 l1 n2 n1 D2 D1 Hgt). lia. }
  apply slices_char_eq; try lia.
  intros k Hk.
  rewrite <- Hn in E, D2.
  pose proof (poly_numeral_digits _ _ l1 l2 n1 D1 D2 E k ltac:(unfold n1; lia))
    as Hc.
  unfold code in Hc. lia.
Qed.

Lemma short_substrings_no_collision_witness :
  slice "abacaba" 0 2 = slice "abacaba" 4 6.
Proof.
  apply (short_substrings_no_collision "abacaba" "abacaba" 0 2 4 6).
  - reflexivity.
  - reflexivity.
  - lia.
  - simpl; lia.
  - lia.
  - lia.
  - simpl; lia.
  - lia.
  - vm_compute; reflexivity.
Defined.

(** X5: the shape of the tables after construction: one row per modulus
    in each table; every row of [powersOfBase] and of
    [inversePowersOfBase] has [n + 1] entries and every row of
    [hashValues] has [n] entries (none for the empty text). *)
Theorem table_lengths (s : string) (i : Z) :
  0 <= i < Z.of_nat (length (hashPrimes (Hashing_new s))) ->
  length (powersOfBase (Hashing_new s)) = length (hashPrimes (Hashing_new s)) /\
  length (inversePowersOfBase (Hashing_new s))
  = length (hashPrimes (Hashing_new s)) /\
  length (hashValues (Hashing_new s)) = length (hashPrimes (Hashing_new s)) /\
  Z.of_nat (length (vget [] (powersOfBase (Hashing_new s)) i))
  = n (Hashing_new s) + 1 /\
  Z.of_nat (length (vget [] (inversePowersOfBase (Hashing_new s)) i))
  = n (Hashing_new s) + 1 /\
  Z.of_nat (length (vget [] (hashValues (Hashing_new s)) i))
  = n (Hashing_new s).
Proof.
  intros Hi.
  destruct (engine_row s i Hi) as (p & Hg & _ & -> & -> & -> & _).
  rewrite new_n.
  assert (Hlen : 0 <= Z.of_nat (String.length s)) by lia.
  rewrite (proj1 (powers_row_spec 31 _ p Hg Hlen)).
  rewrite (proj1 (inverse_row_spec 31 _ p Hg Hlen)).
  rewrite (proj1 (prefix_row_spec 31 _ p Hg Hlen s)).
  rewrite new_powersOfBase, new_inversePowersOfBase, new_hashValues,
    new_hashPrimes.
  repeat (split; [reflexivity |]). reflexivity.
Qed.

Lemma table_lengths_witness :
  length (powersOfBase (Hashing_new ""))
  = length (hashPrimes (Hashing_new "")) /\
  length (inversePowersOfBase (Hashing_new ""))
  = length (hashPrimes (Hashing_new "")) /\
  length (hashValues (Hashing_new "")) = length (hashPrimes (Hashing_new "")) /\
  Z.of_nat (length (vget [] (powersOfBase (Hashing_new "")) 0))
  = n (Hashing_new "") + 1 /\
  Z.of_nat (length (vget [] (inversePowersOfBase (Hashing_new "")) 0))
  = n (Hashing_new "") + 1 /\
  Z.of_nat (length (vget [] (hashValues (Hashing_new "")) 0))
  = n (Hashing_new "").
Proof.
  apply (table_lengths "" 0).
  simpl; lia.
Defined.

Lemma prefix_entry (s : string) (i j : Z) :
  0 <= i < Z.of_nat (length (hashPrimes (Hashing_new s))) ->
  0 <= j < Z.of_nat (String.length s) ->
  vget 0 (vget [] (hashValues (Hashing_new s)) i) j
    mod vget 0 (hashPrimes (Hashing_new s)) i
  = poly (code s) 31 0 (Z.to_nat (j + 1))
    mod vget 0 (hashPrimes (Hashing_new s)) i /\
  - vget 0 (hashPrimes (Hashing_new s)) i
  < vget 0 (vget [] (hashValues (Hashing_new s)) i) j
  < vget 0 (hashPrimes (Hashing_new s)) i /\
  (lowercase s = true ->
   vget 0 (vget [] (hashValues (Hashing_new s)) i) j
   = poly (code s) 31 0 (Z.to_nat (j + 1))
     mod vget 0 (hashPrimes (Hashing_new s)) i).
Proof.
  intros Hi Hj.
  destruct (engine_row s i Hi) as (p & Hg & -> & _ & _ & -> & _).
  assert (Hlen : 0 <= Z.of_nat (String.length s)) by lia.
  destruct (prefix_row_spec 31 _ p Hg Hlen s) as [_ Hhv].
  destruct (Hhv j Hj) as [Hb Hc].
  split; [exact Hc | split; [exact Hb |]].
  intros Hs. rewrite <- Hc. symmetry. apply Z.mod_small.
  apply (prefix_row_range 31 _ p Hg Hlen s); [| exact Hj].
  intros k Hk. pose proof (lowercase_code s k Hs Hk). lia.
Qed.

(** X6: the prefix table in closed form, for every text: [hashValues[i][j]]
    is congruent modulo [hashPrimes[i]] to
    [sum_{k <= j} (text[k] - 'a' + 1) * 31^k] and lies strictly between
    [-hashPrimes[i]] and [hashPrimes[i]]; for a lowercase text it is that
    sum reduced modulo [hashPrimes[i]]. *)
Theorem prefix_hash_closed_form (s : string) (i j : Z) :
  0 <= i < Z.of_nat (length (hashPrimes (Hashing_new s))) ->
  0 <= j < n (Hashing_new s) ->
  vget 0 (vget [] (hashValues (Hashing_new s)) i) j
    mod vget 0 (hashPrimes (Hashing_new s)) i
  = poly (code s) 31 0 (Z.to_nat (j + 1))
    mod vget 0 (hashPrimes (Hashing_new s)) i /\
  - vget 0 (hashPrimes (Hashing_new s)) i
  < vget 0 (vget [] (hashValues (Hashing_new s)) i) j
  < vget 0 (hashPrimes (Hashing_new s)) i /\
  (lowercase s = true ->
   vget 0 (vget [] (hashValues (Hashing_new s)) i) j
   = poly (code s) 31 0 (Z.to_nat (j + 1))
     mod vget 0 (hashPrimes (Hashing_new s)) i).
Proof.
  intros Hi Hj. rewrite new_n in Hj. apply prefix_entry; assumption.
Qed.

Lemma prefix_hash_closed_form_witness :
  vget 0 (vget [] (hashValues (Hashing_new "abacaba")) 0) 3
    mod vget 0 (hashPrimes (Hashing_new "abacaba")) 0
  = poly (code "abacaba") 31 0 (Z.to_nat (3 + 1))
    mod vget 0 (hashPrimes (Hashing_new "abacaba")) 0 /\
  - vget 0 (hashPrimes (Hashing_new "abacaba")) 0
  < vget 0 (vget [] (hashValues (Hashing_new "abacaba")) 0) 3
  < vget 0 (hashPrimes (Hashing_new "abacaba")) 0 /\
  (lowercase "abacaba" = true ->
   vget 0 (vget [] (hashValues (Hashing_new "abacaba")) 0) 3
   = poly (code "abacaba") 31 0 (Z.to_nat (3 + 1))
     mod vget 0 (hashPrimes (Hashing_new "abacaba")) 0).
Proof.
  apply (prefix_hash_closed_form "abacaba" 0 3).
  - simpl; lia.
  - simpl; lia.
Defined.

(** X7: a query that starts at index 0 returns the stored prefix hash:
    component [i] of [substringHashVec(0, r)] is [hashValues[i][r]] reduced
    modulo [hashPrimes[i]], and is [hashValues[i][r]] itself when the text
    is lowercase. *)
Theorem prefix_query_reads_table (s : string) (r i : Z) :
  0 <= r < n (Hashing_new s) ->
  0 <= i < Z.of_nat (length (hashPrimes (Hashing_new s))) ->
  vget 0 (substringHashVec_of s 0 r) i
  = vget 0 (vget [] (hashValues (Hashing_new s)) i) r
    mod vget 0 (hashPrimes (Hashing_new s)) i /\
  (lowercase s = true ->
   vget 0 (substringHashVec_of s 0 r) i
   = vget 0 (vget [] (hashValues (Hashing_new s)) i) r).
Proof.
  intros Hr Hi. rewrite new_n in Hr.
  destruct (prefix_entry s i r Hi Hr) as (Hc & _ & Hlow).
  destruct (engine_row s i Hi) as (p & _ & Hp & _ & _ & _ & Hq).
  rewrite Hp in *. rewrite Hq by lia.
  replace (r - 0 + 1) with (r + 1) by ring.
  split; [symmetry; exact Hc |].
  intros Hs. symmetry. apply Hlow. exact Hs.
Qed.

Lemma prefix_query_reads_table_witness :
  vget 0 (substringHashVec_of "abacaba" 0 4) 1
  = vget 0 (vget [] (hashValues (Hashing_new "abacaba")) 1) 4
    mod vget 0 (hashPrimes (Hashing_new "abacaba")) 1 /\
  (lowercase "abacaba" = true ->
   vget 0 (substringHashVec_of "abacaba" 0 4) 1
   = vget 0 (vget [] (hashValues (Hashing_new "abacaba")) 1) 4).
Proof.
  apply (prefix_query_reads_table "abacaba" 4 1).
  - simpl; lia.
  - simpl; lia.
Defined.

(** X8: the downward multiplications of the constructor yield exactly the
    Fermat inverses: for every [0 <= j <= n], [inversePowersOfBase[i][j]]
    equals [mminvprime(powersOfBase[i][j], hashPrimes[i])], although
    [mminvprime] is called for [j = n] only. *)
Theorem inverse_table_is_fermat (s : string) (i j : Z) :
  0 <= i < Z.of_nat (length (hashPrimes (Hashing_new s))) ->
  0 <= j <= n (Hashing_new s) ->
  vget 0 (vget [] (inversePowersOfBase (Hashing_new s)) i) j
  = mminvprime (vget 0 (vget [] (powersOfBase (Hashing_new s)) i) j)
               (vget 0 (hashPrimes (Hashing_new s)) i).
Proof.
  intros Hi Hj. rewrite new_n in Hj.
  destruct (engine_row s i Hi) as (p & Hg & -> & -> & -> & _ & _).
  assert (Hlen : 0 <= Z.of_nat (String.length s)) by lia.
  destruct (powers_row_spec 31 _ p Hg Hlen) as [_ Hpw].
  destruct (inverse_row_spec 31 _ p Hg Hlen) as [_ Hipw].
  destruct (Hipw j Hj) as [Hr Hinv].
  rewrite (Hpw j Hj).
  assert (Hp : 1 < p) by (destruct Hg as (_ & Hp & _); exact Hp).
  apply (inverse_unique p (31 ^ j)); [exact Hr | | exact Hinv |].
  - rewrite mminvprime_spec by lia. apply Z.mod_pos_bound. lia.
  - apply (mminvprime_power 31 j p Hg). lia.
Qed.

Lemma inverse_table_is_fermat_witness :
  vget 0 (vget [] (inversePowersOfBase (Hashing_new "abacaba")) 0) 3
  = mminvprime (vget 0 (vget [] (powersOfBase (Hashing_new "abacaba")) 0) 3)
               (vget 0 (hashPrimes (Hashing_new "abacaba")) 0).
Proof.
  apply (inverse_table_is_fermat "abacaba" 0 3).
  - simpl; lia.
  - simpl; lia.
Defined.

(** * Further properties of the hash functors *)

Lemma testbit_u64_high (y m : Z) :
  0 <= y < 2 ^ 64 -> 64 <= m -> Z.testbit y m = false.
Proof.
  intros Hy Hm. rewrite <- (Z.mod_small y (2 ^ 64) Hy).
  apply Z.mod_pow2_bits_high. lia.
Qed.

Lemma unxorshift_range (k y : Z) :
  0 <= k -> 0 <= y < 2 ^ 64 -> 0 <= unxorshift k y < 2 ^ 64.
Proof.
  intros Hk Hy. unfold unxorshift.
  apply lxor_u64_range; [exact Hy |].
  apply lxor_u64_range; apply shiftr_u64_range; (lia || exact Hy).
Qed.

Lemma unxorshift_spec (k y : Z) :
  22 <= k -> 0 <= y < 2 ^ 64 ->
  Z.lxor (unxorshift k y) (Z.shiftr (unxorshift k y) k) = y.
Proof.
  intros Hk Hy. unfold unxorshift. apply Z.bits_inj'. intros i Hi.
  rewrite !Z.lxor_spec, !Z.shiftr_spec, !Z.lxor_spec, !Z.shiftr_spec by lia.
  replace (i + k + k) with (i + 2 * k) by ring.
  rewrite (testbit_u64_high y (i + k + 2 * k)) by lia.
  destruct (Z.testbit y i), (Z.testbit y (i + k)), (Z.testbit y (i + 2 * k));
    reflexivity.
Qed.

Lemma u64_mul_unit (c c' x : Z) :
  u64 (c' * c) = 1 -> 0 <= x < 2 ^ 64 -> u64 (u64 (x * c') * c) = x.
Proof.
  intros Hc Hx. unfold u64 in *.
  rewrite Zmult_mod_idemp_l, <- Z.mul_assoc, <- Zmult_mod_idemp_r, Hc.
  rewrite Z.mul_1_r. apply Z.mod_small. exact Hx.
Qed.

Lemma u64_sub_add (x c : Z) : 0 <= x < 2 ^ 64 -> u64 (u64 (x - c) + c) = x.
Proof.
  intros Hx. unfold u64. rewrite Zplus_mod_idemp_l.
  replace (x - c + c) with x by ring. apply Z.mod_small. exact Hx.
Qed.

Lemma splitmix64_unsplitmix64 (y : Z) :
  0 <= y < 2 ^ 64 -> custom_hash.splitmix64 (unsplitmix64 y) = y.
Proof.
  intros Hy. unfold custom_hash.splitmix64, unsplitmix64.
  rewrite u64_sub_add by (apply unxorshift_range; [lia | apply u64_range]).
  rewrite unxorshift_spec by (try apply u64_range; lia).
  rewrite u64_mul_unit;
    [| vm_compute; reflexivity
     | apply unxorshift_range; [lia | apply u64_range]].
  rewrite unxorshift_spec by (try apply u64_range; lia).
  rewrite u64_mul_unit;
    [| vm_compute; reflexivity | apply unxorshift_range; [lia | exact Hy]].
  apply unxorshift_spec; [lia | exact Hy].
Qed.

Lemma custom_hash_preimage (seed y : Z) :
  0 <= y < 2 ^ 64 ->
  custom_hash.call seed (u64 (unsplitmix64 y - seed)) = y.
Proof.
  intros Hy. unfold custom_hash.call.
  rewrite u64_sub_add; [apply splitmix64_unsplitmix64; exact Hy |].
  unfold unsplitmix64. apply u64_range.
Qed.

Lemma u64_to_ll (u : Z) :
  0 <= u < 2 ^ 64 -> u64 (to_ll u) = u /\ - 2 ^ 63 <= to_ll u < 2 ^ 63.
Proof.
  intros Hu. unfold to_ll, u64. destruct (u <? 2 ^ 63) eqn:E.
  - split; [apply Z.mod_small; lia | lia].
  - split; [| lia].
    replace (u - 2 ^ 64) with (u + (-1) * 2 ^ 64) by ring.
    rewrite Z_mod_plus_full. apply Z.mod_small. lia.
Qed.

Lemma u64_shiftl1 (h : Z) : u64 (Z.shiftl h 1) = 2 * (h mod 2 ^ 63).
Proof.
  unfold u64. rewrite Z.shiftl_mul_pow2 by lia.
  replace (h * 2 ^ 1) with (2 * h) by ring.
  change (2 ^ 64) with (2 * 2 ^ 63).
  apply Zmult_mod_distr_l.
Qed.

Lemma lxor_cancel_l (a x y : Z) : Z.lxor a x = Z.lxor a y -> x = y.
Proof.
  intros H. apply Z.bits_inj'. intros i Hi.
  apply (f_equal (fun z => Z.testbit z i)) in H.
  rewrite !Z.lxor_spec in H.
  destruct (Z.testbit a i), (Z.testbit x i), (Z.testbit y i);
    simpl in *; congruence.
Qed.

Lemma lxor_cancel_r (a x y : Z) : Z.lxor x a = Z.lxor y a -> x = y.
Proof.
  rewrite (Z.lxor_comm x), (Z.lxor_comm y). apply lxor_cancel_l.
Qed.

(** X9: for every seed [custom_hash] is a permutation of the 64-bit
    words: every 64-bit value [y] is the hash of exactly one 64-bit key. *)
Theorem custom_hash_permutation (seed y : Z) :
  0 <= y < 2 ^ 64 ->
  exists x, 0 <= x < 2 ^ 64 /\ custom_hash.call seed x = y /\
    forall x', 0 <= x' < 2 ^ 64 -> custom_hash.call seed x' = y -> x' = x.
Proof.
  intros Hy. exists (u64 (unsplitmix64 y - seed)).
  split; [apply u64_range |].
  split; [apply custom_hash_preimage; exact Hy |].
  intros x' Hx' E. apply (custom_hash_inj seed); [exact Hx' | apply u64_range |].
  rewrite E. symmetry. apply custom_hash_preimage. exact Hy.
Qed.

Lemma custom_hash_permutation_witness :
  exists x, 0 <= x < 2 ^ 64 /\ custom_hash.call 7 x = 12345 /\
    forall x', 0 <= x' < 2 ^ 64 -> custom_hash.call 7 x' = 12345 -> x' = x.
Proof.
  apply (custom_hash_permutation 7 12345).
  lia.
Defined.

(** X10: the seed only shifts the keys: a key [x] hashed with [seed1] and
    a key [y] hashed with [seed2] give the same value exactly when
    [x + seed1] and [y + seed2] agree modulo [2^64]. *)
Theorem custom_hash_seed_shift (seed1 seed2 x y : Z) :
  custom_hash.call seed1 x = custom_hash.call seed2 y <->
  u64 (x + seed1) = u64 (y + seed2).
Proof.
  unfold custom_hash.call. split.
  - apply splitmix64_inj; apply u64_range.
  - intros ->. reflexivity.
Qed.

(** X11: [pair_hash] never confuses two pairs that differ in the first
    element only. *)
Theorem pair_hash_first_injective (seed a a' b : Z) :
  - 2 ^ 63 <= a < 2 ^ 63 -> - 2 ^ 63 <= a' < 2 ^ 63 ->
  a <> a' ->
  pair_hash.call seed (a, b) <> pair_hash.call seed (a', b).
Proof.
  intros Ha Ha' Hne H. apply Hne.
  unfold pair_hash.call in H. cbn [fst snd] in H.
  apply lxor_cancel_r in H.
  apply custom_hash_inj in H; [| apply u64_range ..].
  apply u64_signed_inj; assumption.
Qed.

Lemma pair_hash_first_injective_witness :
  pair_hash.call 3 (5, 9) <> pair_hash.call 3 (6, 9).
Proof.
  apply (pair_hash_first_injective 3 5 6 9).
  - lia.
  - lia.
  - lia.
Defined.

Lemma pair_hash_same_first (seed a b b' : Z) :
  pair_hash.call seed (a, b) = pair_hash.call seed (a, b') <->
  custom_hash.call seed (u64 b) mod 2 ^ 63
  = custom_hash.call seed (u64 b') mod 2 ^ 63.
Proof.
  unfold pair_hash.call. cbn [fst snd]. rewrite !u64_shiftl1. split.
  - intros H. apply lxor_cancel_l in H. lia.
  - intros ->. reflexivity.
Qed.

(** X12: [pair_hash] uses the low 63 bits of the second element's hash
    only (the shift [h2 << 1] drops the top bit): two pairs with the same
    first element collide exactly when the hashes of their second elements
    agree modulo [2^63]. *)
Theorem pair_hash_second_low_bits (seed a b b' : Z) :
  pair_hash.call seed (a, b) = pair_hash.call seed (a, b') <->
  custom_hash.call seed (u64 b) mod 2 ^ 63
  = custom_hash.call seed (u64 b') mod 2 ^ 63.
Proof. apply pair_hash_same_first. Qed.

Lemma flip_top_bit (h : Z) :
  0 <= h < 2 ^ 64 ->
  0 <= Z.lxor h (2 ^ 63) < 2 ^ 64 /\
  Z.lxor h (2 ^ 63) <> h /\
  Z.lxor h (2 ^ 63) mod 2 ^ 63 = h mod 2 ^ 63.
Proof.
  intros Hh. split; [apply lxor_u64_range; lia |]. split.
  - intros E. rewrite <- (Z.lxor_0_r h) in E at 2.
    apply lxor_cancel_l in E. lia.
  - apply Z.bits_inj'. intros i Hi.
    rewrite !Z.testbit_mod_pow2, Z.lxor_spec, Z.pow2_bits_eqb by lia.
    destruct (i <? 63) eqn:E; [| reflexivity].
    replace (63 =? i) with false by lia.
    rewrite xorb_false_r. reflexivity.
Qed.

(** X13: unlike [custom_hash], [pair_hash] is not collision-free: for
    every seed and every pair [(a, b)] of [ll] values there is a second
    element [b'] different from [b] with [pair_hash (a, b') = pair_hash
    (a, b)]. *)
Theorem pair_hash_collision (seed a b : Z) :
  - 2 ^ 63 <= b < 2 ^ 63 ->
  exists b', - 2 ^ 63 <= b' < 2 ^ 63 /\ b' <> b /\
    pair_hash.call seed (a, b') = pair_hash.call seed (a, b).
Proof.
  intros Hb.
  set (h := custom_hash.call seed (u64 b)).
  destruct (flip_top_bit h (custom_hash_range seed (u64 b)))
    as (Hr & Hne & Hlow).
  set (u := u64 (unsplitmix64 (Z.lxor h (2 ^ 63)) - seed)).
  destruct (u64_to_ll u (u64_range _)) as [Eu Ru].
  assert (Eh : custom_hash.call seed (u64 (to_ll u)) = Z.lxor h (2 ^ 63))
    by (rewrite Eu; apply custom_hash_preimage; exact Hr).
  exists (to_ll u). split; [exact Ru |]. split.
  - intros E. apply Hne. rewrite <- Eh, E. reflexivity.
  - apply pair_hash_same_first. rewrite Eh. exact Hlow.
Qed.

Lemma pair_hash_collision_witness :
  exists b', - 2 ^ 63 <= b' < 2 ^ 63 /\ b' <> 2 /\
    pair_hash.call 42 (1, b') = pair_hash.call 42 (1, 2).
Proof.
  apply (pair_hash_collision 42 1 2).
  lia.
Defined.

(** X14: [vector_hash] never confuses two one-element vectors with
    different elements. *)
Theorem vector_hash_singleton_injective (seed x y : Z) :
  - 2 ^ 63 <= x < 2 ^ 63 -> - 2 ^ 63 <= y < 2 ^ 63 ->
  x <> y ->
  vector_hash.call seed [x] <> vector_hash.call seed [y].
Proof.
  intros Hx Hy Hne H. apply Hne.
  unfold vector_hash.call in H. cbn [fold_left] in H.
  rewrite !Z.lxor_0_l, Z.shiftl_0_l, Z.shiftr_0_l in H.
  change (u64 0) with 0 in H. rewrite !Z.add_0_r in H.
  apply u64_add_inj in H; [| apply custom_hash_range ..].
  apply custom_hash_inj in H; [| apply u64_range ..].
  apply u64_signed_inj; assumption.
Qed.

Lemma vector_hash_singleton_injective_witness :
  vector_hash.call 11 [4] <> vector_hash.call 11 [-4].
Proof.
  apply (vector_hash_singleton_injective 11 4 (-4)).
  - lia.
  - lia.
  - lia.
Defined.
